(** * Piecewise-linear two-phase material law (Opm::PiecewiseLinearTwoPhaseMaterial)

    A shallow embedding of [PiecewiseLinearTwoPhaseMaterial] and of the
    [TwoPhaseMaterialTraits] it consumes.

    Modelling conventions.
    - [Scalar] is a template parameter of the law ([Traits::Scalar]), in
      practice [double].  The law is embedded twice.  The main development
      instantiates [Scalar] with the exact rationals [Q]: it is used for what
      rests on the comparisons the code makes (which segment is selected,
      which branch is taken, which assertion fails) and for the expression
      the code evaluates, written as the code writes it.  A division whose
      divisor is zero has no rational value and is reported as the outcome
      [DivisionByZero]; with strictly increasing knots it does not occur.
      Module [Double] instantiates the evaluator with IEEE binary64, through
      the primitive floats: there every operation rounds as the compiled code
      does, and a division by zero returns an infinity or a NaN and the call
      goes on.  It is used to run the code where rounding decides the result.
    - [int] indices are integers [Z]; the quotient of the bisection is the
      truncating [Z.quot] of C++.  Sample tables are taken to have fewer than
      2^30 entries, where the [int] arithmetic of the search is exact.
    - [assert], [OPM_THROW] and indexing outside a container end the call
      with an outcome of their own, propagated by [bind]. *)

From Stdlib Require Import ZArith QArith List String Bool Lia Lqa.
From Stdlib Require Import Floats.PrimFloat.
Import ListNotations.

Local Open Scope Z_scope.

(** ** Outcomes of a call *)

Inductive outcome (A : Type) : Type :=
| Ret (a : A)                      (* normal return *)
| AssertionFailure (cond : string) (* a failed [assert] *)
| LogicError (what : string)       (* [OPM_THROW(std::logic_error, what)] *)
| OutOfBounds                      (* [operator[]], [front()] or [back()] outside the container *)
| DivisionByZero                   (* [a / b] with [b] zero *)
| LoopBudgetExhausted.             (* the bisection did not finish within its budget *)

Arguments Ret {A} a.
Arguments AssertionFailure {A} cond.
Arguments LogicError {A} what.
Arguments OutOfBounds {A}.
Arguments DivisionByZero {A}.
Arguments LoopBudgetExhausted {A}.

Definition bind {A B : Type} (m : outcome A) (k : A -> outcome B) : outcome B :=
  match m with
  | Ret a => k a
  | AssertionFailure c => AssertionFailure c
  | LogicError w => LogicError w
  | OutOfBounds => OutOfBounds
  | DivisionByZero => DivisionByZero
  | LoopBudgetExhausted => LoopBudgetExhausted
  end.

Notation "x <- m ;; k" := (bind m (fun x => k))
  (at level 61, m at next level, right associativity).
Notation "m ;;; k" := (bind m (fun _ => k))
  (at level 61, right associativity).

Definition assert (b : bool) (cond : string) : outcome unit :=
  if b then Ret tt else AssertionFailure cond.

(** [returns o v]: the call returned normally, with a value equal to [v]. *)
Definition returns (o : outcome Q) (v : Q) : Prop :=
  exists r, o = Ret r /\ (r == v)%Q.

(** [finishes o]: the call ended, normally or with an error, without
    exhausting the loop budget of the model. *)
Definition finishes {A : Type} (o : outcome A) : Prop :=
  o <> LoopBudgetExhausted.

(** ** Scalars *)

Abbreviation Scalar := Q (only parsing).

Definition Slt (a b : Scalar) : bool := negb (Qle_bool b a).
Definition Sgt (a b : Scalar) : bool := Slt b a.
Definition Sle (a b : Scalar) : bool := Qle_bool a b.
Definition Sge (a b : Scalar) : bool := Qle_bool b a.

Definition div (a b : Scalar) : outcome Scalar :=
  if Qeq_bool b 0 then DivisionByZero else Ret (a / b)%Q.

(** ** Traits: TwoPhaseMaterialTraits<Scalar, wettingPhaseIdxV, nonWettingPhaseIdxV>

    The three [static_assert]s of the class are fields: a configuration that
    violates them does not compile, hence has no instance. *)

Definition numPhases : Z := 2.

Class Traits := {
  wPhaseIdx : Z;
  nPhaseIdx : Z;
  wPhaseIdx_in_range : 0 <= wPhaseIdx < numPhases;
  nPhaseIdx_in_range : 0 <= nPhaseIdx < numPhases;
  phases_differ : wPhaseIdx <> nPhaseIdx
}.

(** ** Sample tables, parameters, fluid state, output container *)

Definition SamplePoints := list (Scalar * Scalar).

Record Params := {
  pcnwSamples : SamplePoints;
  krwSamples : SamplePoints;
  krnSamples : SamplePoints
}.

Record FluidState := { saturation : Z -> Scalar }.

Definition Container := list Scalar.

Definition size {A : Type} (s : list A) : Z := Z.of_nat (List.length s).

(** [samples[i]] *)
Definition at_ {A : Type} (s : list A) (i : Z) : outcome A :=
  if i <? 0 then OutOfBounds
  else match nth_error s (Z.to_nat i) with
       | Some p => Ret p
       | None => OutOfBounds
       end.

Definition front {A : Type} (s : list A) : outcome A :=
  match s with
  | [] => OutOfBounds
  | p :: _ => Ret p
  end.

Definition back {A : Type} (s : list A) : outcome A :=
  match s with
  | [] => OutOfBounds
  | p :: t => Ret (last t p)
  end.

Fixpoint update {A : Type} (s : list A) (i : nat) (v : A) : list A :=
  match s, i with
  | [], _ => []
  | _ :: t, O => v :: t
  | a :: t, S j => a :: update t j v
  end.

(** [values[i] = v] *)
Definition set_at (values : Container) (i : Z) (v : Scalar) : outcome Container :=
  if (i <? 0) || (size values <=? i) then OutOfBounds
  else Ret (update values (Z.to_nat i) v).

(** ** The evaluator (private members) *)

(** The [while (lowIdx + 1 < highIdx)] loop of [findSegmentIndex_]; [budget]
    bounds the number of iterations. *)
Fixpoint bisection (budget : nat) (samples : SamplePoints) (x : Scalar)
         (lowIdx highIdx : Z) : outcome Z :=
  if lowIdx + 1 <? highIdx then
    match budget with
    | O => LoopBudgetExhausted
    | S budget' =>
        let curIdx := Z.quot (lowIdx + highIdx) 2 in
        c <- at_ samples curIdx ;;
        if Slt (fst c) x
        then bisection budget' samples x curIdx highIdx
        else bisection budget' samples x lowIdx curIdx
    end
  else Ret lowIdx.

Definition findSegmentIndex_ (samples : SamplePoints) (x : Scalar) : outcome Z :=
  let n := size samples - 1 in
  assert (1 <=? n) "n >= 1" ;;;
  sn <- at_ samples n ;;
  if Slt (fst sn) x then Ret (n - 1)
  else
    s0 <- at_ samples 0 ;;
    if Sgt (fst s0) x then Ret 0
    else bisection (Z.to_nat n) samples x 0 n.

Definition eval_ (samples : SamplePoints) (x : Scalar) : outcome Scalar :=
  segIdx <- findSegmentIndex_ samples x ;;
  (f <- front samples ;;
   if Sge x (fst f) then
     b <- back samples ;;
     if Sle x (fst b) then
       l <- at_ samples segIdx ;;
       assert (Sle (fst l) x) "samples[segIdx].first <= x" ;;;
       r <- at_ samples (segIdx + 1) ;;
       assert (Sge (fst r) x) "samples[segIdx + 1].first >= x"
     else Ret tt
   else Ret tt) ;;;
  l <- at_ samples segIdx ;;
  r <- at_ samples (segIdx + 1) ;;
  alpha <- div (x - fst l)%Q (fst r - fst l)%Q ;;
  Ret (snd l + (snd r - snd l) * alpha)%Q.

Definition evalDeriv_ (samples : SamplePoints) (x : Scalar) : outcome Scalar :=
  segIdx <- findSegmentIndex_ samples x ;;
  r <- at_ samples (segIdx + 1) ;;
  l <- at_ samples segIdx ;;
  div (snd r - snd l)%Q (fst r - fst l)%Q.

(** Modelled from the spec: [OPM_THROW] comes from
    opm/core/utility/ErrorMacros.hpp, which is not among the sources; the
    spec has it raise the Unsupported-Operation error, which propagates to
    the caller uncaught.  Here: the outcome [LogicError] with the message. *)
Definition OPM_THROW_logic_error {A : Type} (what : string) : outcome A :=
  LogicError what.

(** [for (int i = 0; i < numPhases; ++i) values[i] = 0.0;] *)
Fixpoint for_each_phase (count : nat) (phaseIdx : Z) (values : Container)
  : outcome Container :=
  match count with
  | O => Ret values
  | S count' =>
      values' <- set_at values phaseIdx 0%Q ;;
      for_each_phase count' (phaseIdx + 1) values'
  end.

Definition fill_zero (values : Container) : outcome Container :=
  for_each_phase (Z.to_nat numPhases) 0 values.

(** ** The material law (public members)

    Functions that fill [values] take the container and return the updated
    one.  [dKrw_dSw] and [dKrn_dSw] are left out: they call the undeclared
    names [twoPhaseSatDkrw_dSw] and [twoPhaseSatDkrn_dSw] and cannot be
    instantiated. *)

Section PiecewiseLinearTwoPhaseMaterial.

Context {traits : Traits}.

Definition twoPhaseSatPcnw (params : Params) (Sw : Scalar) : outcome Scalar :=
  evalDeriv_ (pcnwSamples params) Sw.

Definition pcnw (params : Params) (fs : FluidState) : outcome Scalar :=
  let Sw := saturation fs wPhaseIdx in
  twoPhaseSatPcnw params Sw.

Definition capillaryPressures (values : Container) (params : Params)
           (fs : FluidState) : outcome Container :=
  values <- set_at values wPhaseIdx 0%Q ;;
  pc <- pcnw params fs ;;
  set_at values nPhaseIdx pc.

Definition saturations (values : Container) (params : Params)
           (fs : FluidState) : outcome Container :=
  OPM_THROW_logic_error "Not implemented: saturations()".

Definition twoPhaseSatKrw (params : Params) (Sw : Scalar) : outcome Scalar :=
  f <- front (krwSamples params) ;;
  if Slt Sw (fst f) then Ret (snd f)
  else
    b <- back (krwSamples params) ;;
    if Sgt Sw (fst b) then Ret (snd b)
    else eval_ (krwSamples params) Sw.

Definition krw (params : Params) (fs : FluidState) : outcome Scalar :=
  twoPhaseSatKrw params (saturation fs wPhaseIdx).

Definition twoPhaseSatDKrw_dSw (params : Params) (Sw : Scalar) : outcome Scalar :=
  f <- front (krwSamples params) ;;
  if Slt Sw (fst f) then Ret 0%Q
  else
    b <- back (krwSamples params) ;;
    if Sgt Sw (fst b) then Ret 0%Q
    else evalDeriv_ (krwSamples params) Sw.

Definition twoPhaseSatKrn (params : Params) (Sw : Scalar) : outcome Scalar :=
  f <- front (krnSamples params) ;;
  if Slt Sw (fst f) then Ret (snd f)
  else
    b <- back (krnSamples params) ;;
    if Sgt Sw (fst b) then Ret (snd b)
    else eval_ (krnSamples params) Sw.

Definition krn (params : Params) (fs : FluidState) : outcome Scalar :=
  twoPhaseSatKrn params (1 - saturation fs nPhaseIdx)%Q.

Definition twoPhaseSatDKrn_dSw (params : Params) (Sw : Scalar) : outcome Scalar :=
  f <- front (krwSamples params) ;;
  if Slt Sw (fst f) then Ret 0%Q
  else
    b <- back (krwSamples params) ;;
    if Sgt Sw (fst b) then Ret 0%Q
    else evalDeriv_ (krnSamples params) Sw.

Definition relativePermeabilities (values : Container) (params : Params)
           (fs : FluidState) : outcome Container :=
  kw <- krw params fs ;;
  values <- set_at values wPhaseIdx kw ;;
  kn <- krn params fs ;;
  set_at values nPhaseIdx kn.

Definition dCapillaryPressures_dSaturation (values : Container) (params : Params)
           (state : FluidState) (satPhaseIdx : Z) : outcome Container :=
  values <- set_at values wPhaseIdx 0%Q ;;
  values <- set_at values nPhaseIdx 0%Q ;;
  if satPhaseIdx =? wPhaseIdx then
    d <- evalDeriv_ (pcnwSamples params) (saturation state wPhaseIdx) ;;
    set_at values nPhaseIdx d
  else Ret values.

Definition dCapillaryPressures_dPressure (values : Container) (params : Params)
           (state : FluidState) (pPhaseIdx : Z) : outcome Container :=
  fill_zero values.

Definition dCapillaryPressures_dTemperature (values : Container) (params : Params)
           (state : FluidState) : outcome Container :=
  fill_zero values.

Definition dCapillaryPressures_dMoleFraction (values : Container) (params : Params)
           (state : FluidState) (phaseIdx compIdx : Z) : outcome Container :=
  fill_zero values.

Definition dRelativePermeabilities_dSaturation (values : Container) (params : Params)
           (state : FluidState) (satPhaseIdx : Z) : outcome Container :=
  if satPhaseIdx =? wPhaseIdx then
    d <- evalDeriv_ (krwSamples params) (saturation state wPhaseIdx) ;;
    values <- set_at values wPhaseIdx d ;;
    set_at values nPhaseIdx 0%Q
  else
    values <- set_at values wPhaseIdx 0%Q ;;
    d <- evalDeriv_ (krwSamples params) (1 - saturation state nPhaseIdx)%Q ;;
    set_at values nPhaseIdx (- d)%Q.

Definition dRelativePermeabilities_dPressure (values : Container) (params : Params)
           (state : FluidState) (pPhaseIdx : Z) : outcome Container :=
  fill_zero values.

Definition dRelativePermeabilities_dTemperature (values : Container) (params : Params)
           (state : FluidState) : outcome Container :=
  fill_zero values.

Definition dRelativePermeabilities_dMoleFraction (values : Container) (params : Params)
           (state : FluidState) (phaseIdx compIdx : Z) : outcome Container :=
  fill_zero values.

Definition Sw (params : Params) (fs : FluidState) : outcome Scalar :=
  OPM_THROW_logic_error "Not implemented: Sw()".

Definition twoPhaseSatSw (params : Params) (pC : Scalar) : outcome Scalar :=
  OPM_THROW_logic_error "Not implemented: twoPhaseSatSw()".

Definition Sn (params : Params) (fs : FluidState) : outcome Scalar :=
  sw <- Sw params fs ;;
  Ret (1 - sw)%Q.

Definition twoPhaseSatSn (params : Params) (pC : Scalar) : outcome Scalar :=
  sw <- twoPhaseSatSw params pC ;;
  Ret (1 - sw)%Q.

Definition twoPhaseSatDPcnw_dSw (params : Params) (Sw : Scalar) : outcome Scalar :=
  assert (Slt 0%Q Sw && Slt Sw 1%Q) "0 < Sw && Sw < 1" ;;;
  evalDeriv_ (pcnwSamples params) Sw.

Definition dPcnw_dSw (params : Params) (fs : FluidState) : outcome Scalar :=
  twoPhaseSatDPcnw_dSw params (saturation fs wPhaseIdx).

End PiecewiseLinearTwoPhaseMaterial.

(** ** Concrete configurations used in the examples *)

#[export] Instance WaterOilTraits : Traits.
Proof. refine {| wPhaseIdx := 0; nPhaseIdx := 1 |}; unfold numPhases; lia. Defined.

Definition pc_table : SamplePoints :=
  [(0, 0); (1 # 2, 1000); (1, 3000)]%Q.

Definition krw_table : SamplePoints := [(2 # 10, 0); (1, 1)]%Q.

Definition krn_table : SamplePoints := [(4 # 10, 1); (9 # 10, 0)]%Q.

Definition example_params : Params :=
  {| pcnwSamples := pc_table; krwSamples := krw_table; krnSamples := krn_table |}.

(** A state that only stores the two saturations. *)
Definition state_of {traits : Traits} (Sw Sn : Scalar) : FluidState :=
  {| saturation := fun phaseIdx => if phaseIdx =? wPhaseIdx then Sw else Sn |}.

(** ** Well-formed tables

    The knots of a table are strictly increasing: the check a caller makes
    on the x column before handing the table to the law. *)
Fixpoint strictly_increasing (samples : SamplePoints) : bool :=
  match samples with
  | p :: (q :: _) as rest => Slt (fst p) (fst q) && strictly_increasing rest
  | _ => true
  end.

(** Tables whose y-values do not decrease: the shape a caller gives the
    wetting-phase relative-permeability table. *)
Fixpoint nondecreasing_values (samples : SamplePoints) : bool :=
  match samples with
  | p :: (q :: _) as rest => Sle (snd p) (snd q) && nondecreasing_values rest
  | _ => true
  end.

(** ** The evaluator with [Scalar = double]

    The same members once more, over IEEE binary64.  [<] and [<=] are the
    comparisons of the floats (false on a NaN); [+], [-], [*] and [/] round
    to nearest; [x > y] is [y < x] and [x >= y] is [y <= x]. *)

Set Warnings "-inexact-float".

Module Double.

Definition SamplePoints := list (float * float).

Record Params := {
  pcnwSamples : SamplePoints;
  krwSamples : SamplePoints;
  krnSamples : SamplePoints
}.

Fixpoint bisection (budget : nat) (samples : SamplePoints) (x : float)
         (lowIdx highIdx : Z) : outcome Z :=
  if lowIdx + 1 <? highIdx then
    match budget with
    | O => LoopBudgetExhausted
    | S budget' =>
        let curIdx := Z.quot (lowIdx + highIdx) 2 in
        c <- at_ samples curIdx ;;
        if (fst c <? x)%float
        then bisection budget' samples x curIdx highIdx
        else bisection budget' samples x lowIdx curIdx
    end
  else Ret lowIdx.

Definition findSegmentIndex_ (samples : SamplePoints) (x : float) : outcome Z :=
  let n := size samples - 1 in
  assert (1 <=? n) "n >= 1" ;;;
  sn <- at_ samples n ;;
  if (fst sn <? x)%float then Ret (n - 1)
  else
    s0 <- at_ samples 0 ;;
    if (x <? fst s0)%float then Ret 0
    else bisection (Z.to_nat n) samples x 0 n.

Definition eval_ (samples : SamplePoints) (x : float) : outcome float :=
  segIdx <- findSegmentIndex_ samples x ;;
  (f <- front samples ;;
   if (fst f <=? x)%float then
     b <- back samples ;;
     if (x <=? fst b)%float then
       l <- at_ samples segIdx ;;
       assert (fst l <=? x)%float "samples[segIdx].first <= x" ;;;
       r <- at_ samples (segIdx + 1) ;;
       assert (x <=? fst r)%float "samples[segIdx + 1].first >= x"
     else Ret tt
   else Ret tt) ;;;
  l <- at_ samples segIdx ;;
  r <- at_ samples (segIdx + 1) ;;
  let alpha := ((x - fst l) / (fst r - fst l))%float in
  Ret (snd l + (snd r - snd l) * alpha)%float.

Definition evalDeriv_ (samples : SamplePoints) (x : float) : outcome float :=
  segIdx <- findSegmentIndex_ samples x ;;
  r <- at_ samples (segIdx + 1) ;;
  l <- at_ samples segIdx ;;
  Ret ((snd r - snd l) / (fst r - fst l))%float.

Definition twoPhaseSatKrw (params : Params) (Sw : float) : outcome float :=
  f <- front (krwSamples params) ;;
  if (Sw <? fst f)%float then Ret (snd f)
  else
    b <- back (krwSamples params) ;;
    if (fst b <? Sw)%float then Ret (snd b)
    else eval_ (krwSamples params) Sw.

Definition twoPhaseSatDKrw_dSw (params : Params) (Sw : float) : outcome float :=
  f <- front (krwSamples params) ;;
  if (Sw <? fst f)%float then Ret 0%float
  else
    b <- back (krwSamples params) ;;
    if (fst b <? Sw)%float then Ret 0%float
    else evalDeriv_ (krwSamples params) Sw.

Fixpoint strictly_increasing (samples : SamplePoints) : bool :=
  match samples with
  | p :: (q :: _) as rest => (fst p <? fst q)%float && strictly_increasing rest
  | _ => true
  end.

(** Tables of doubles used in the examples. *)
Definition pc_table : SamplePoints :=
  [(0, 0); (0.5, 1000); (1, 3000)]%float.

Definition krw_table : SamplePoints := [(0.2, 0); (1, 1)]%float.

Definition rounding_table : SamplePoints :=
  [(0, 0); (0.5, 0.3); (1, 0.9)]%float.

Definition example_params : Params :=
  {| pcnwSamples := pc_table; krwSamples := krw_table; krnSamples := krw_table |}.

End Double.

(** * Properties *)

(** ** Comparisons and indexing *)

Lemma Slt_true (a b : Scalar) : Slt a b = true <-> (a < b)%Q.
Proof.
  unfold Slt. rewrite negb_true_iff, <- not_true_iff_false, Qle_bool_iff.
  split; [apply Qnot_le_lt | apply Qlt_not_le].
Qed.

Lemma Slt_false (a b : Scalar) : Slt a b = false <-> (b <= a)%Q.
Proof.
  unfold Slt. rewrite negb_false_iff. apply Qle_bool_iff.
Qed.

Lemma Sle_true (a b : Scalar) : Sle a b = true <-> (a <= b)%Q.
Proof. apply Qle_bool_iff. Qed.

Lemma Sge_true (a b : Scalar) : Sge a b = true <-> (b <= a)%Q.
Proof. apply Qle_bool_iff. Qed.

Lemma div_nonzero (a b : Scalar) : ~ (b == 0)%Q -> div a b = Ret (a / b)%Q.
Proof.
  intros Hb. unfold div. destruct (Qeq_bool b 0) eqn:E; [|reflexivity].
  apply Qeq_bool_eq in E. contradiction.
Qed.

Lemma at_Ret_iff {A : Type} (s : list A) (i : Z) (p : A) :
  at_ s i = Ret p <-> 0 <= i /\ nth_error s (Z.to_nat i) = Some p.
Proof.
  unfold at_. destruct (i <? 0) eqn:E.
  - apply Z.ltb_lt in E. split; [discriminate | lia].
  - apply Z.ltb_ge in E. destruct (nth_error s (Z.to_nat i)).
    + split; [intros [= ->]; auto | intros [_ [= ->]]; reflexivity].
    + split; [discriminate | intros [_ [=]]].
Qed.

Lemma at_Ret_bounds {A : Type} (s : list A) (i : Z) (p : A) :
  at_ s i = Ret p -> 0 <= i < size s.
Proof.
  rewrite at_Ret_iff. intros [Hi Hn]. split; [assumption|].
  assert (Z.to_nat i < List.length s)%nat
    by (apply nth_error_Some; congruence).
  unfold size. lia.
Qed.

Lemma at_in_bounds {A : Type} (s : list A) (i : Z) :
  0 <= i < size s -> exists p, at_ s i = Ret p.
Proof.
  unfold size. intros Hi.
  destruct (nth_error s (Z.to_nat i)) as [p|] eqn:E.
  - exists p. apply at_Ret_iff. split; [lia | assumption].
  - apply nth_error_None in E. lia.
Qed.

Lemma at_functional {A : Type} (s : list A) (i : Z) (p q : A) :
  at_ s i = Ret p -> at_ s i = Ret q -> p = q.
Proof. congruence. Qed.

Lemma front_at {A : Type} (s : list A) : front s = at_ s 0.
Proof. destruct s; reflexivity. Qed.

Lemma last_cons_default {A : Type} (t : list A) (b d d' : A) :
  last (b :: t) d = last (b :: t) d'.
Proof.
  revert b. induction t as [|a t IH]; intros b; [reflexivity|].
  change (last (a :: t) d = last (a :: t) d'). apply IH.
Qed.

Lemma nth_error_last {A : Type} (t : list A) (p : A) :
  nth_error (p :: t) (List.length t) = Some (last t p).
Proof.
  revert p. induction t as [|a t IH]; intros p; [reflexivity|].
  change (nth_error (a :: t) (List.length t) = Some (last (a :: t) p)).
  rewrite IH. f_equal. destruct t as [|b t]; [reflexivity|].
  change (last (b :: t) a = last (b :: t) p). apply last_cons_default.
Qed.

Lemma back_at {A : Type} (s : list A) : back s = at_ s (size s - 1).
Proof.
  destruct s as [|p t]; [reflexivity|].
  unfold back, at_, size.
  replace (Z.of_nat (List.length (p :: t)) - 1) with (Z.of_nat (List.length t))
    by (simpl List.length; lia).
  destruct (Z.of_nat (List.length t) <? 0) eqn:E; [apply Z.ltb_lt in E; lia|].
  rewrite Nat2Z.id, nth_error_last. reflexivity.
Qed.

(** ** The bisection loop *)

Lemma bisection_done (budget : nat) (samples : SamplePoints) (x : Scalar)
      (low high : Z) :
  high <= low + 1 -> bisection budget samples x low high = Ret low.
Proof.
  intros H. destruct budget; simpl;
    (destruct (low + 1 <? high) eqn:E; [apply Z.ltb_lt in E; lia | reflexivity]).
Qed.

Lemma bisection_step (budget : nat) (samples : SamplePoints) (x : Scalar)
      (low high : Z) :
  low + 1 < high ->
  bisection (S budget) samples x low high =
  (c <- at_ samples (Z.quot (low + high) 2) ;;
   if Slt (fst c) x
   then bisection budget samples x (Z.quot (low + high) 2) high
   else bisection budget samples x low (Z.quot (low + high) 2)).
Proof.
  intros H. simpl. apply Z.ltb_lt in H. rewrite H. reflexivity.
Qed.

(** The midpoint lies strictly between the two indices: each iteration
    shrinks the interval. *)
Lemma midpoint_between (low high : Z) :
  0 <= low -> low + 1 < high ->
  low < Z.quot (low + high) 2 < high.
Proof.
  intros H0 H. rewrite Z.quot_div_nonneg by lia.
  Z.to_euclidean_division_equations. lia.
Qed.

(** ... and halves its width, so [log2_up] of the width bounds the number
    of iterations. *)
Lemma midpoint_halves (low high : Z) (budget : nat) :
  0 <= low -> low + 1 < high ->
  Z.log2_up (high - low) <= Z.of_nat (S budget) ->
  Z.log2_up (high - Z.quot (low + high) 2) <= Z.of_nat budget /\
  Z.log2_up (Z.quot (low + high) 2 - low) <= Z.of_nat budget.
Proof.
  intros H0 H Hlog.
  pose proof (midpoint_between low high H0 H) as Hmid.
  apply Z.log2_up_le_pow2 in Hlog; [|lia].
  rewrite Nat2Z.inj_succ, Z.pow_succ_r in Hlog by lia.
  rewrite Z.quot_div_nonneg in * by lia.
  split; apply Z.log2_up_le_pow2; try lia;
    Z.to_euclidean_division_equations; lia.
Qed.

Lemma bisection_spec (samples : SamplePoints) (x : Scalar) :
  forall (budget : nat) (low high : Z),
    0 <= low < high -> high <= size samples - 1 ->
    Z.log2_up (high - low) <= Z.of_nat budget ->
    exists i, bisection budget samples x low high = Ret i /\
      low <= i < high /\
      (i = low \/ exists p, at_ samples i = Ret p /\ (fst p < x)%Q) /\
      (i + 1 = high \/ exists q, at_ samples (i + 1) = Ret q /\ (x <= fst q)%Q).
Proof.
  induction budget as [|budget IH]; intros low high Hlow Hhigh Hlog.
  - assert (high - low <= 2 ^ 0) by (apply Z.log2_up_le_pow2; lia).
    exists low. rewrite bisection_done by (simpl in *; lia).
    repeat split; try lia; left; simpl in *; lia.
  - destruct (Z_lt_le_dec (low + 1) high) as [Hgo|Hstop].
    2:{ exists low. rewrite bisection_done by lia.
        repeat split; try lia; left; lia. }
    rewrite bisection_step by assumption.
    pose proof (midpoint_between low high (proj1 Hlow) Hgo) as Hmid.
    destruct (midpoint_halves low high budget (proj1 Hlow) Hgo Hlog) as [Hup Hdown].
    set (cur := Z.quot (low + high) 2) in *.
    destruct (at_in_bounds samples cur) as [c Hc]; [lia|].
    rewrite Hc. simpl bind.
    destruct (Slt (fst c) x) eqn:Hcmp.
    + apply Slt_true in Hcmp.
      destruct (IH cur high) as (i & Hi & Hrange & Hl & Hr); try lia.
      exists i. split; [exact Hi|]. split; [lia|]. split; [|exact Hr].
      right. destruct Hl as [->|Hl]; [exists c; auto | exact Hl].
    + apply Slt_false in Hcmp.
      destruct (IH low cur) as (i & Hi & Hrange & Hl & Hr); try lia.
      exists i. split; [exact Hi|]. split; [lia|]. split; [exact Hl|].
      right. destruct Hr as [Hr|Hr]; [exists c; rewrite Hr; auto | exact Hr].
Qed.

(** ** Segment search *)

Lemma findSegmentIndex_spec (samples : SamplePoints) (x : Scalar) :
  2 <= size samples ->
  exists i l r f b,
    findSegmentIndex_ samples x = Ret i /\
    0 <= i <= size samples - 2 /\
    at_ samples i = Ret l /\ at_ samples (i + 1) = Ret r /\
    at_ samples 0 = Ret f /\ at_ samples (size samples - 1) = Ret b /\
    ((fst b < x)%Q /\ i = size samples - 2
     \/ (x <= fst b)%Q /\ (x < fst f)%Q /\ i = 0
     \/ (fst f <= x)%Q /\ (x <= fst b)%Q /\
        (i = 0 \/ (fst l < x)%Q) /\
        (i + 1 = size samples - 1 \/ (x <= fst r)%Q)).
Proof.
  intros Hsize. unfold findSegmentIndex_.
  set (n := size samples - 1).
  assert (Hn : (1 <=? n) = true) by (apply Z.leb_le; lia).
  rewrite Hn. simpl bind.
  destruct (at_in_bounds samples n) as [b Hb]; [lia|].
  destruct (at_in_bounds samples 0) as [f Hf]; [lia|].
  rewrite Hb. simpl bind.
  destruct (Slt (fst b) x) eqn:Habove.
  { apply Slt_true in Habove.
    destruct (at_in_bounds samples (n - 1)) as [l Hl]; [lia|].
    exists (n - 1), l, b, f, b.
    replace (n - 1 + 1) with n by lia.
    repeat split; auto; try lia. left. split; [assumption | lia]. }
  apply Slt_false in Habove.
  rewrite Hf. simpl bind. unfold Sgt.
  destruct (Slt x (fst f)) eqn:Hbelow.
  { apply Slt_true in Hbelow.
    destruct (at_in_bounds samples (0 + 1)) as [r Hr]; [lia|].
    exists 0, f, r, f, b. repeat split; auto; try lia. }
  apply Slt_false in Hbelow.
  destruct (bisection_spec samples x (Z.to_nat n) 0 n) as (i & Hi & Hrange & Hlo & Hhi);
    try lia.
  { rewrite Z2Nat.id, Z.sub_0_r by lia. apply Z.lt_le_incl, Z.log2_up_lt_lin. lia. }
  destruct (at_in_bounds samples i) as [l Hl]; [lia|].
  destruct (at_in_bounds samples (i + 1)) as [r Hr]; [lia|].
  exists i, l, r, f, b. repeat split; auto; try lia.
  right. right. repeat split; auto.
  - destruct Hlo as [Hlo|(p & Hp & Hpx)]; [left; assumption|].
    right. rewrite (at_functional _ _ _ _ Hl Hp). assumption.
  - destruct Hhi as [Hhi|(q & Hq & Hqx)]; [left; assumption|].
    right. rewrite (at_functional _ _ _ _ Hr Hq). assumption.
Qed.

(** Whenever [x] lies in the table's domain, the selected segment brackets
    it: the two assertions of [eval_].  No ordering of the knots is needed. *)
Lemma findSegmentIndex_brackets (samples : SamplePoints) (x : Scalar) :
  2 <= size samples ->
  exists i l r,
    findSegmentIndex_ samples x = Ret i /\
    0 <= i <= size samples - 2 /\
    at_ samples i = Ret l /\ at_ samples (i + 1) = Ret r /\
    (forall f b, front samples = Ret f -> back samples = Ret b ->
                 (fst f <= x)%Q -> (x <= fst b)%Q ->
                 (fst l <= x)%Q /\ (x <= fst r)%Q).
Proof.
  intros Hsize.
  destruct (findSegmentIndex_spec samples x Hsize)
    as (i & l & r & f & b & Hi & Hrange & Hl & Hr & Hf & Hb & Hcases).
  exists i, l, r.
  split; [exact Hi|]. split; [exact Hrange|]. split; [exact Hl|]. split; [exact Hr|].
  intros f' b' Hf' Hb' Hlo Hhi.
  rewrite front_at in Hf'. rewrite back_at in Hb'.
  assert (f' = f) by congruence. assert (b' = b) by congruence. subst f' b'.
  destruct Hcases as [[Ha _]|[(_ & Hbelow & _)|(_ & _ & Hleft & Hright)]]; try lra.
  split.
  - destruct Hleft as [Hz|Hlt]; [|lra].
    rewrite Hz in Hl. assert (l = f) by congruence. subst l. assumption.
  - destruct Hright as [Hz|Hle]; [|assumption].
    rewrite Hz in Hr. assert (r = b) by congruence. subst r. assumption.
Qed.

Lemma eval_reduces (samples : SamplePoints) (x : Scalar) (i : Z)
      (l r : Scalar * Scalar) :
  2 <= size samples ->
  findSegmentIndex_ samples x = Ret i ->
  at_ samples i = Ret l -> at_ samples (i + 1) = Ret r ->
  eval_ samples x =
    (alpha <- div (x - fst l)%Q (fst r - fst l)%Q ;;
     Ret (snd l + (snd r - snd l) * alpha)%Q)
  /\ evalDeriv_ samples x = div (snd r - snd l)%Q (fst r - fst l)%Q.
Proof.
  intros Hsize Hi Hl Hr.
  destruct (findSegmentIndex_brackets samples x Hsize)
    as (i' & l' & r' & Hi' & Hrange & Hl' & Hr' & Hbr).
  assert (i' = i) by congruence. subst i'.
  assert (l' = l) by congruence. assert (r' = r) by congruence. subst l' r'.
  unfold eval_, evalDeriv_. rewrite Hi. simpl bind. rewrite Hl, Hr. simpl bind.
  split; [|reflexivity].
  destruct (at_in_bounds samples 0) as [f Hf]; [lia|].
  destruct (at_in_bounds samples (size samples - 1)) as [b Hb]; [lia|].
  rewrite <- front_at in Hf. rewrite <- back_at in Hb.
  rewrite Hf. simpl bind.
  destruct (Sge x (fst f)) eqn:Hge; [|reflexivity].
  rewrite Hb. simpl bind.
  destruct (Sle x (fst b)) eqn:Hle; [|reflexivity].
  apply Sge_true in Hge. apply Sle_true in Hle.
  destruct (Hbr f b Hf Hb Hge Hle) as [Hlx Hxr].
  apply Sle_true in Hlx. apply Sge_true in Hxr.
  rewrite Hlx, Hxr. reflexivity.
Qed.

(** The result of the loop does not depend on the budget once the budget
    covers [log2_up] of the interval's width. *)
Lemma bisection_budget_irrelevant (samples : SamplePoints) (x : Scalar) :
  forall (b1 b2 : nat) (low high : Z),
    0 <= low < high -> high <= size samples - 1 ->
    Z.log2_up (high - low) <= Z.of_nat b1 ->
    Z.log2_up (high - low) <= Z.of_nat b2 ->
    bisection b1 samples x low high = bisection b2 samples x low high.
Proof.
  induction b1 as [|b1 IH]; intros b2 low high Hlow Hhigh H1 H2.
  - assert (high - low <= 2 ^ 0) by (apply Z.log2_up_le_pow2; lia).
    rewrite !bisection_done by (simpl in *; lia). reflexivity.
  - destruct (Z_lt_le_dec (low + 1) high) as [Hgo|Hstop].
    2:{ rewrite !bisection_done by lia. reflexivity. }
    destruct b2 as [|b2].
    { assert (high - low <= 2 ^ 0) by (apply Z.log2_up_le_pow2; lia).
      simpl in *; lia. }
    rewrite !bisection_step by assumption.
    pose proof (midpoint_between low high (proj1 Hlow) Hgo) as Hmid.
    destruct (midpoint_halves low high b1 (proj1 Hlow) Hgo H1) as [Hu1 Hd1].
    destruct (midpoint_halves low high b2 (proj1 Hlow) Hgo H2) as [Hu2 Hd2].
    destruct (at_ samples (Z.quot (low + high) 2)) as [c| | | | |]; try reflexivity.
    simpl bind. destruct (Slt (fst c) x); apply IH; lia.
Qed.

(** ** Strictly increasing knots *)

Lemma strictly_increasing_head (t : SamplePoints) :
  forall (p q : Scalar * Scalar) (j : nat),
    strictly_increasing (p :: t) = true -> nth_error t j = Some q ->
    (fst p < fst q)%Q.
Proof.
  induction t as [|a t IH]; intros p q j Hs Hq.
  - destruct j; discriminate.
  - simpl in Hs. apply andb_prop in Hs as [Hpa Hrest]. apply Slt_true in Hpa.
    destruct j as [|j]; simpl in Hq.
    + injection Hq as <-. assumption.
    + specialize (IH a q j Hrest Hq). lra.
Qed.

Lemma strictly_increasing_tail (p : Scalar * Scalar) (t : SamplePoints) :
  strictly_increasing (p :: t) = true -> strictly_increasing t = true.
Proof.
  destruct t as [|q t]; [reflexivity|].
  simpl. intros H. apply andb_prop in H. tauto.
Qed.

Lemma strictly_increasing_nth (s : SamplePoints) :
  forall (i j : nat) (p q : Scalar * Scalar),
    strictly_increasing s = true ->
    nth_error s i = Some p -> nth_error s j = Some q ->
    (i < j)%nat -> (fst p < fst q)%Q.
Proof.
  induction s as [|a s IH]; intros i j p q Hs Hp Hq Hij.
  - destruct i; discriminate.
  - destruct j as [|j]; [lia|]. simpl in Hq. destruct i as [|i]; simpl in Hp.
    + injection Hp as <-. eapply strictly_increasing_head; eassumption.
    + apply (IH i j); [eapply strictly_increasing_tail; eassumption | | | lia];
        assumption.
Qed.

Section Knots.

Variable samples : SamplePoints.
Hypothesis Hsorted : strictly_increasing samples = true.
Variables (i j : Z) (p q : Scalar * Scalar).
Hypothesis Hp : at_ samples i = Ret p.
Hypothesis Hq : at_ samples j = Ret q.

Lemma knots_lt : i < j -> (fst p < fst q)%Q.
Proof.
  intros Hij. apply at_Ret_iff in Hp as [Hi Hp']. apply at_Ret_iff in Hq as [Hj Hq'].
  apply (strictly_increasing_nth samples (Z.to_nat i) (Z.to_nat j)); auto. lia.
Qed.

Lemma knots_le : i <= j -> (fst p <= fst q)%Q.
Proof.
  intros Hij. destruct (Z.eq_dec i j) as [->|Hne].
  - replace q with p by congruence. lra.
  - apply Qlt_le_weak, knots_lt. lia.
Qed.

End Knots.

Lemma knots_lt_inv (samples : SamplePoints) (i j : Z) (p q : Scalar * Scalar) :
  strictly_increasing samples = true ->
  at_ samples i = Ret p -> at_ samples j = Ret q ->
  (fst p < fst q)%Q -> i < j.
Proof.
  intros Hs Hp Hq Hlt. destruct (Z_lt_le_dec i j) as [|Hji]; [assumption|].
  pose proof (knots_le samples Hs j i q p Hq Hp Hji). lra.
Qed.

(** On a strictly increasing table the search returns the one segment
    [k] with [x_k < x <= x_(k+1)]. *)
Lemma findSegmentIndex_sorted (samples : SamplePoints) (x : Scalar) (k : Z)
      (l r : Scalar * Scalar) :
  strictly_increasing samples = true ->
  at_ samples k = Ret l -> at_ samples (k + 1) = Ret r ->
  (fst l < x)%Q -> (x <= fst r)%Q ->
  findSegmentIndex_ samples x = Ret k.
Proof.
  intros Hs Hl Hr Hlx Hxr.
  pose proof (at_Ret_bounds _ _ _ Hl) as Hkl.
  pose proof (at_Ret_bounds _ _ _ Hr) as Hkr.
  destruct (findSegmentIndex_spec samples x)
    as (i & li & ri & f & b & Hi & Hrange & Hli & Hri & Hf & Hb & Hcases); [lia|].
  rewrite Hi. f_equal.
  pose proof (knots_le samples Hs (k + 1) (size samples - 1) r b Hr Hb) as Hrb.
  pose proof (knots_le samples Hs 0 k f l Hf Hl) as Hfl.
  destruct Hcases as [[Ha _]|[(_ & Hbelow & _)|(_ & _ & Hleft & Hright)]].
  - specialize (Hrb ltac:(lia)). lra.
  - specialize (Hfl ltac:(lia)). lra.
  - assert (i <= k).
    { destruct Hleft as [->|Hlt]; [lia|].
      assert (i < k + 1); [|lia].
      apply (knots_lt_inv samples i (k + 1) li r); auto. lra. }
    assert (k <= i).
    { destruct Hright as [Hz|Hle]; [lia|].
      assert (k < i + 1); [|lia].
      apply (knots_lt_inv samples k (i + 1) l ri); auto. lra. }
    lia.
Qed.

(** A query on the first knot selects the first segment. *)
Lemma findSegmentIndex_first_knot (samples : SamplePoints) (x : Scalar)
      (f : Scalar * Scalar) :
  strictly_increasing samples = true -> 2 <= size samples ->
  at_ samples 0 = Ret f -> (x == fst f)%Q ->
  findSegmentIndex_ samples x = Ret 0.
Proof.
  intros Hs Hsize Hf Hx.
  destruct (findSegmentIndex_spec samples x Hsize)
    as (i & li & ri & f' & b & Hi & Hrange & Hli & Hri & Hf' & Hb & Hcases).
  assert (f' = f) by congruence. subst f'.
  rewrite Hi. f_equal.
  pose proof (knots_le samples Hs 0 (size samples - 1) f b Hf Hb ltac:(lia)) as Hfb.
  destruct Hcases as [[Ha _]|[(_ & Hbelow & _)|(_ & _ & Hleft & _)]]; try lra.
  destruct Hleft as [->|Hlt]; [reflexivity|].
  pose proof (knots_le samples Hs 0 i f li Hf Hli ltac:(lia)). lra.
Qed.

(** Outside the domain the first or the last segment is selected, whatever
    the order of the knots. *)
Lemma findSegmentIndex_above (samples : SamplePoints) (x : Scalar)
      (b : Scalar * Scalar) :
  2 <= size samples -> back samples = Ret b -> (fst b < x)%Q ->
  findSegmentIndex_ samples x = Ret (size samples - 2).
Proof.
  intros Hsize Hb Hx. rewrite back_at in Hb.
  destruct (findSegmentIndex_spec samples x Hsize)
    as (i & li & ri & f & b' & Hi & Hrange & Hli & Hri & Hf & Hb' & Hcases).
  assert (b' = b) by congruence. subst b'. rewrite Hi. f_equal.
  destruct Hcases as [[_ ->]|[(Hle & _)|(_ & Hle & _)]]; [reflexivity | lra | lra].
Qed.

Lemma findSegmentIndex_below (samples : SamplePoints) (x : Scalar)
      (f b : Scalar * Scalar) :
  2 <= size samples -> front samples = Ret f -> back samples = Ret b ->
  (x < fst f)%Q -> (x <= fst b)%Q ->
  findSegmentIndex_ samples x = Ret 0.
Proof.
  intros Hsize Hf Hb Hx Hxb. rewrite front_at in Hf. rewrite back_at in Hb.
  destruct (findSegmentIndex_spec samples x Hsize)
    as (i & li & ri & f' & b' & Hi & Hrange & Hli & Hri & Hf' & Hb' & Hcases).
  assert (f' = f) by congruence. assert (b' = b) by congruence. subst f' b'.
  rewrite Hi. f_equal.
  destruct Hcases as [[Hlt _]|[(_ & _ & ->)|(Hle & _)]]; [lra | reflexivity | lra].
Qed.

(** ** Value and slope on a selected segment *)

Lemma eval_on_segment (samples : SamplePoints) (x : Scalar) (k : Z)
      (l r : Scalar * Scalar) :
  findSegmentIndex_ samples x = Ret k ->
  at_ samples k = Ret l -> at_ samples (k + 1) = Ret r ->
  (fst l < fst r)%Q ->
  eval_ samples x =
    Ret (snd l + (snd r - snd l) * ((x - fst l) / (fst r - fst l)))%Q
  /\ evalDeriv_ samples x = Ret ((snd r - snd l) / (fst r - fst l))%Q.
Proof.
  intros Hk Hl Hr Hlr.
  pose proof (at_Ret_bounds _ _ _ Hl) as Hkl.
  pose proof (at_Ret_bounds _ _ _ Hr) as Hkr.
  destruct (eval_reduces samples x k l r) as [He Hd]; auto; [lia|].
  rewrite He, Hd, !div_nonzero by lra. split; reflexivity.
Qed.

(** C5, as stated, fails on the code compiled with [Scalar = double]: on the
    table [(0,0); (0.5,0.3); (1,0.9)], whose knots are strictly increasing,
    the query [x = 1] is the last knot, and [eval_] does not return the
    tabulated 0.9 but 0.9000000000000001.  It evaluates
    [0.3 + (0.9 - 0.3) * ((1 - 0.5) / (1 - 0.5))], the interpolation formula
    on the segment ending at the knot, and the difference and the sum are
    each rounded. *)
Lemma eval_at_knot_is_rounded_counterexample :
  Double.strictly_increasing Double.rounding_table = true /\
  at_ Double.rounding_table 2 = Ret (1, 0.9)%float /\
  Double.eval_ Double.rounding_table 1
  = Ret (0.3 + (0.9 - 0.3) * ((1 - 0.5) / (1 - 0.5)))%float /\
  Double.eval_ Double.rounding_table 1 = Ret 0.9000000000000001%float /\
  (0.9000000000000001 =? 0.9)%float = false.
Proof.
  repeat split; vm_compute; reflexivity.
Qed.

(** C5, amended: on a table with at least two points and strictly increasing
    knots, [eval_] queried at a knot evaluates the interpolation formula
    [y_l + (y_r - y_l) * ((x - x_l) / (x_r - x_l))] on the first segment for
    the first knot and, for every later knot, on the segment that ends at
    the knot; strictly inside a segment [x_i < x < x_(i+1)] it evaluates the
    same formula on that segment, and [evalDeriv_] returns the quotient
    [(y_(i+1) - y_i) / (x_(i+1) - x_i)], the same for every [x] of the open
    segment.  The results are those of the formula as the code computes it:
    no exact agreement with the tabulated y-value is stated. *)
Theorem eval_evaluates_formula_on_selected_segment (T : SamplePoints) :
  2 <= size T -> strictly_increasing T = true ->
  (forall (f r : Scalar * Scalar) (x : Scalar),
      at_ T 0 = Ret f -> at_ T 1 = Ret r -> (x == fst f)%Q ->
      eval_ T x
      = Ret (snd f + (snd r - snd f) * ((x - fst f) / (fst r - fst f)))%Q) /\
  (forall (k : Z) (l p : Scalar * Scalar) (x : Scalar),
      0 < k -> at_ T (k - 1) = Ret l -> at_ T k = Ret p -> (x == fst p)%Q ->
      eval_ T x
      = Ret (snd l + (snd p - snd l) * ((x - fst l) / (fst p - fst l)))%Q) /\
  (forall (i : Z) (l r : Scalar * Scalar) (x : Scalar),
      at_ T i = Ret l -> at_ T (i + 1) = Ret r ->
      (fst l < x)%Q -> (x < fst r)%Q ->
      evalDeriv_ T x = Ret ((snd r - snd l) / (fst r - fst l))%Q /\
      eval_ T x
      = Ret (snd l + (snd r - snd l) * ((x - fst l) / (fst r - fst l)))%Q).
Proof.
  intros Hsize Hs. split; [|split].
  - intros f r x Hf Hr Hx.
    pose proof (knots_lt T Hs 0 1 f r Hf Hr ltac:(lia)) as Hfr.
    apply (eval_on_segment T x 0 f r); auto.
    apply (findSegmentIndex_first_knot T x f); auto.
  - intros k l p x Hk Hl Hp Hx.
    pose proof (knots_lt T Hs (k - 1) k l p Hl Hp ltac:(lia)) as Hlp.
    replace k with (k - 1 + 1) in Hp by lia.
    apply (eval_on_segment T x (k - 1) l p); auto.
    apply (findSegmentIndex_sorted T x (k - 1) l p); auto; lra.
  - intros i l r x Hl Hr Hlx Hxr.
    destruct (eval_on_segment T x i l r) as [He Hd]; auto; [|lra].
    apply (findSegmentIndex_sorted T x i l r); auto; lra.
Qed.

Lemma eval_evaluates_formula_on_selected_segment_witness :
  eval_ pc_table 0 = Ret (0 + (1000 - 0) * ((0 - 0) / ((1 # 2) - 0)))%Q /\
  eval_ pc_table 1 = Ret (1000 + (3000 - 1000) * ((1 - (1 # 2)) / (1 - (1 # 2))))%Q /\
  evalDeriv_ pc_table (3 # 4) = Ret ((3000 - 1000) / (1 - (1 # 2)))%Q /\
  eval_ pc_table (3 # 4)
  = Ret (1000 + (3000 - 1000) * (((3 # 4) - (1 # 2)) / (1 - (1 # 2))))%Q.
Proof.
  destruct (eval_evaluates_formula_on_selected_segment pc_table)
    as (Hfirst & Hknot & Hseg).
  - vm_compute. discriminate.
  - reflexivity.
  - split; [|split].
    + apply (Hfirst (0, 0)%Q (1 # 2, 1000)%Q 0%Q); reflexivity.
    + apply (Hknot 2 (1 # 2, 1000)%Q (1, 3000)%Q 1%Q); reflexivity.
    + apply (Hseg 1 (1 # 2, 1000)%Q (1, 3000)%Q (3 # 4)%Q); reflexivity.
Defined.

(** ** Queries on an internal knot *)

(** C3, as stated, fails: on the table [(0,0); (1/2,1000); (1,3000)] the
    query [x = 1/2] is the internal knot [x_1], yet the search returns
    segment 0, whose right endpoint is [x], and not segment 1; the slope
    returned is 2000, that of the segment to the left of the knot, and not
    4000, that of the segment to its right. *)
Lemma knot_query_left_endpoint_counterexample :
  strictly_increasing pc_table = true /\
  at_ pc_table 1 = Ret (1 # 2, 1000)%Q /\
  0 < 1 < size pc_table - 1 /\
  findSegmentIndex_ pc_table (1 # 2) = Ret 0 /\
  findSegmentIndex_ pc_table (1 # 2) <> Ret 1 /\
  returns (evalDeriv_ pc_table (1 # 2)) 2000 /\
  ~ returns (evalDeriv_ pc_table (1 # 2)) ((3000 - 1000) / (1 - (1 # 2))).
Proof.
  repeat split; try reflexivity; try (vm_compute; discriminate).
  - eexists. split; [vm_compute; reflexivity | reflexivity].
  - intros (v & Hv & Hq). vm_compute in Hv. injection Hv as <-.
    vm_compute in Hq. discriminate.
Qed.

(** C3, amended: on a table with strictly increasing knots, a query equal to
    an internal knot [x_k] (0 < k < last) selects segment [k - 1], the
    segment whose right endpoint is [x]; [evalDeriv_] then returns the slope
    of the segment to the left of the knot. *)
Theorem knot_query_selects_segment_ending_at_knot
        (T : SamplePoints) (k : Z) (l p : Scalar * Scalar) (x : Scalar) :
  strictly_increasing T = true ->
  0 < k < size T - 1 ->
  at_ T (k - 1) = Ret l -> at_ T k = Ret p ->
  (x == fst p)%Q ->
  findSegmentIndex_ T x = Ret (k - 1) /\
  returns (evalDeriv_ T x) ((snd p - snd l) / (fst p - fst l)).
Proof.
  intros Hs Hk Hl Hp Hx.
  pose proof (knots_lt T Hs (k - 1) k l p Hl Hp ltac:(lia)) as Hlp.
  replace k with (k - 1 + 1) in Hp by lia.
  assert (Hseg : findSegmentIndex_ T x = Ret (k - 1))
    by (apply (findSegmentIndex_sorted T x (k - 1) l p); auto; lra).
  split; [exact Hseg|].
  destruct (eval_on_segment T x (k - 1) l p) as [_ Hd]; auto.
  eexists. split; [exact Hd | reflexivity].
Qed.

Lemma knot_query_selects_segment_ending_at_knot_witness :
  findSegmentIndex_ pc_table (1 # 2) = Ret (1 - 1) /\
  returns (evalDeriv_ pc_table (1 # 2)) ((1000 - 0) / ((1 # 2) - 0)).
Proof.
  apply (knot_query_selects_segment_ending_at_knot
           pc_table 1 (0, 0)%Q (1 # 2, 1000)%Q (1 # 2)%Q);
    try reflexivity.
  vm_compute. split; reflexivity.
Defined.

(** ** Termination *)

Lemma finishes_bind {A B : Type} (m : outcome A) (k : A -> outcome B) :
  finishes m -> (forall a, finishes (k a)) -> finishes (bind m k).
Proof.
  unfold finishes. intros Hm Hk. destruct m; simpl; try discriminate; auto.
Qed.

Lemma finishes_Ret {A : Type} (a : A) : finishes (Ret a).
Proof. discriminate. Qed.

Lemma finishes_at {A : Type} (s : list A) (i : Z) : finishes (at_ s i).
Proof.
  unfold finishes, at_. destruct (i <? 0); [discriminate|].
  destruct (nth_error s (Z.to_nat i)); discriminate.
Qed.

Lemma finishes_front {A : Type} (s : list A) : finishes (front s).
Proof. rewrite front_at. apply finishes_at. Qed.

Lemma finishes_back {A : Type} (s : list A) : finishes (back s).
Proof. rewrite back_at. apply finishes_at. Qed.

Lemma finishes_div (a b : Scalar) : finishes (div a b).
Proof. unfold finishes, div. destruct (Qeq_bool b 0); discriminate. Qed.

Lemma finishes_assert (b : bool) (cond : string) : finishes (assert b cond).
Proof. destruct b; discriminate. Qed.

Lemma finishes_set_at (values : Container) (i : Z) (v : Scalar) :
  finishes (set_at values i v).
Proof.
  unfold finishes, set_at. destruct ((i <? 0) || (size values <=? i)); discriminate.
Qed.

Lemma finishes_for_each_phase (count : nat) :
  forall (i : Z) (values : Container), finishes (for_each_phase count i values).
Proof.
  induction count as [|count IH]; intros i values; simpl.
  - apply finishes_Ret.
  - apply finishes_bind; [apply finishes_set_at | intros v; apply IH].
Qed.

Lemma finishes_fill_zero (values : Container) : finishes (fill_zero values).
Proof. apply finishes_for_each_phase. Qed.

Lemma finishes_findSegmentIndex (samples : SamplePoints) (x : Scalar) :
  finishes (findSegmentIndex_ samples x).
Proof.
  destruct (Z_lt_le_dec (size samples) 2) as [Hsmall|Hsize].
  - unfold findSegmentIndex_.
    assert (E : (1 <=? size samples - 1) = false) by (apply Z.leb_gt; lia).
    rewrite E. discriminate.
  - destruct (findSegmentIndex_spec samples x Hsize) as (i & ? & ? & ? & ? & Hi & _).
    rewrite Hi. apply finishes_Ret.
Qed.

Create HintDb finish.
#[export] Hint Resolve finishes_Ret finishes_at finishes_front finishes_back
  finishes_div finishes_assert finishes_set_at finishes_fill_zero
  finishes_findSegmentIndex : finish.

Ltac finishing :=
  repeat first
    [ solve [auto with finish]
    | apply finishes_bind; [|intros ?]
    | match goal with
      | |- finishes (if ?b then _ else _) => destruct b
      | |- finishes (OPM_THROW_logic_error _) => discriminate
      end ].

Lemma finishes_eval (samples : SamplePoints) (x : Scalar) :
  finishes (eval_ samples x).
Proof. unfold eval_. finishing. Qed.

Lemma finishes_evalDeriv (samples : SamplePoints) (x : Scalar) :
  finishes (evalDeriv_ samples x).
Proof. unfold evalDeriv_. finishing. Qed.

#[export] Hint Resolve finishes_eval finishes_evalDeriv : finish.

(** C9: for every table with at least two points and every query [x], the
    segment search ends and returns an index [i] with [0 <= i <= size - 2];
    the bisection needs no more than [log2_up (size - 1)] iterations;
    [samples[i]] and [samples[i+1]] exist, they bracket [x] whenever [x]
    lies in the table's domain, so [eval_] passes its two assertions and,
    like [evalDeriv_], comes down to the arithmetic on that segment; and
    every entry point of the law ends. *)
Theorem evaluation_terminates_in_bounds (samples : SamplePoints) (x : Scalar) :
  2 <= size samples ->
  (exists (i : Z) (l r : Scalar * Scalar),
      findSegmentIndex_ samples x = Ret i /\
      0 <= i <= size samples - 2 /\
      at_ samples i = Ret l /\ at_ samples (i + 1) = Ret r /\
      (forall f b, front samples = Ret f -> back samples = Ret b ->
                   (fst f <= x)%Q -> (x <= fst b)%Q ->
                   (fst l <= x)%Q /\ (x <= fst r)%Q) /\
      eval_ samples x =
        (alpha <- div (x - fst l)%Q (fst r - fst l)%Q ;;
         Ret (snd l + (snd r - snd l) * alpha)%Q) /\
      evalDeriv_ samples x = div (snd r - snd l)%Q (fst r - fst l)%Q) /\
  (forall budget : nat,
      Z.log2_up (size samples - 1) <= Z.of_nat budget ->
      exists i, bisection budget samples x 0 (size samples - 1) = Ret i /\
                0 <= i <= size samples - 2) /\
  (forall (traits : Traits) (params : Params) (values : Container)
          (fs : FluidState) (phaseIdx compIdx : Z) (s : Scalar),
      finishes (twoPhaseSatPcnw params s) /\
      finishes (pcnw params fs) /\
      finishes (capillaryPressures values params fs) /\
      finishes (twoPhaseSatKrw params s) /\
      finishes (krw params fs) /\
      finishes (twoPhaseSatKrn params s) /\
      finishes (krn params fs) /\
      finishes (relativePermeabilities values params fs) /\
      finishes (twoPhaseSatDPcnw_dSw params s) /\
      finishes (dPcnw_dSw params fs) /\
      finishes (twoPhaseSatDKrw_dSw params s) /\
      finishes (twoPhaseSatDKrn_dSw params s) /\
      finishes (dCapillaryPressures_dSaturation values params fs phaseIdx) /\
      finishes (dCapillaryPressures_dPressure values params fs phaseIdx) /\
      finishes (dCapillaryPressures_dTemperature values params fs) /\
      finishes (dCapillaryPressures_dMoleFraction values params fs phaseIdx compIdx) /\
      finishes (dRelativePermeabilities_dSaturation values params fs phaseIdx) /\
      finishes (dRelativePermeabilities_dPressure values params fs phaseIdx) /\
      finishes (dRelativePermeabilities_dTemperature values params fs) /\
      finishes (dRelativePermeabilities_dMoleFraction values params fs phaseIdx compIdx)).
Proof.
  intros Hsize. split; [|split].
  - destruct (findSegmentIndex_brackets samples x Hsize)
      as (i & l & r & Hi & Hrange & Hl & Hr & Hbr).
    destruct (eval_reduces samples x i l r Hsize Hi Hl Hr) as [He Hd].
    exists i, l, r. repeat split; auto; try lia; apply (Hbr f b); assumption.
  - intros budget Hb.
    destruct (bisection_spec samples x budget 0 (size samples - 1))
      as (i & Hi & Hrange & _); try lia.
    { rewrite Z.sub_0_r. assumption. }
    exists i. split; [assumption | lia].
  - intros traits params values fs phaseIdx compIdx s.
    unfold twoPhaseSatPcnw, pcnw, twoPhaseSatPcnw, capillaryPressures,
      twoPhaseSatKrw, krw, twoPhaseSatKrw, twoPhaseSatKrn, krn, twoPhaseSatKrn,
      relativePermeabilities, krw, krn, twoPhaseSatKrw, twoPhaseSatKrn,
      twoPhaseSatDPcnw_dSw, dPcnw_dSw, twoPhaseSatDPcnw_dSw,
      twoPhaseSatDKrw_dSw, twoPhaseSatDKrn_dSw,
      dCapillaryPressures_dSaturation, dCapillaryPressures_dPressure,
      dCapillaryPressures_dTemperature, dCapillaryPressures_dMoleFraction,
      dRelativePermeabilities_dSaturation, dRelativePermeabilities_dPressure,
      dRelativePermeabilities_dTemperature, dRelativePermeabilities_dMoleFraction.
    repeat split; finishing.
Qed.

Lemma evaluation_terminates_in_bounds_witness :
  findSegmentIndex_ pc_table (3 # 4) = Ret 1 /\
  eval_ pc_table (3 # 4) = Ret (1000 + (3000 - 1000) * (((3 # 4) - (1 # 2)) / (1 - (1 # 2))))%Q.
Proof.
  destruct (evaluation_terminates_in_bounds pc_table (3 # 4)) as [Hseg _].
  - vm_compute. discriminate.
  - destruct Hseg as (i & l & r & Hi & _ & Hl & Hr & _ & He & _).
    vm_compute in Hi. injection Hi as <-.
    vm_compute in Hl. injection Hl as <-.
    vm_compute in Hr. injection Hr as <-.
    split; [reflexivity | exact He].
Defined.

(** ** Relative permeability of the wetting phase *)

(** C6, as stated, fails on the code compiled with [Scalar = double]: on the
    claim's own table [(0.2,0); (1,1)], [twoPhaseSatKrw] at 0.6 does not
    return 0.5 but 0.49999999999999994, the rounded value of
    [0 + (1 - 0) * ((0.6 - 0.2) / (1 - 0.2))].  The two clamped examples hold:
    at 0.1 the value is 0 and the slope is 0. *)
Lemma krw_example_is_rounded_counterexample :
  Double.twoPhaseSatKrw Double.example_params 0.6
  = Ret (0 + (1 - 0) * ((0.6 - 0.2) / (1 - 0.2)))%float /\
  Double.twoPhaseSatKrw Double.example_params 0.6 = Ret 0.49999999999999994%float /\
  (0.49999999999999994 =? 0.5)%float = false /\
  Double.twoPhaseSatKrw Double.example_params 0.1 = Ret 0%float /\
  Double.twoPhaseSatDKrw_dSw Double.example_params 0.1 = Ret 0%float.
Proof.
  repeat split; vm_compute; reflexivity.
Qed.

(** C6, amended: below the first knot of the wetting-phase table
    [twoPhaseSatKrw] returns the first y-value and above the last knot the
    last y-value, [twoPhaseSatDKrw_dSw] returning exactly 0 in both cases;
    inside the domain [twoPhaseSatKrw] is [eval_] and [twoPhaseSatDKrw_dSw]
    is [evalDeriv_] on the table, which on a table with strictly increasing
    knots evaluate the interpolation formula
    [y_i + (y_(i+1) - y_i) * ((Sw - x_i) / (x_(i+1) - x_i))] and the quotient
    [(y_(i+1) - y_i) / (x_(i+1) - x_i)] on the segment with
    [x_i < Sw <= x_(i+1)] (the first segment also for [Sw] on the first
    knot).  The value inside the domain is that of the formula as the code
    computes it. *)
Theorem krw_clamps_outside_and_evaluates_segment_inside
        {traits : Traits} (params : Params) (f b : Scalar * Scalar) :
  front (krwSamples params) = Ret f ->
  back (krwSamples params) = Ret b ->
  (fst f <= fst b)%Q ->
  (forall Sw : Scalar, (Sw < fst f)%Q ->
      twoPhaseSatKrw params Sw = Ret (snd f) /\
      twoPhaseSatDKrw_dSw params Sw = Ret 0%Q) /\
  (forall Sw : Scalar, (fst b < Sw)%Q ->
      twoPhaseSatKrw params Sw = Ret (snd b) /\
      twoPhaseSatDKrw_dSw params Sw = Ret 0%Q) /\
  (forall Sw : Scalar, (fst f <= Sw)%Q -> (Sw <= fst b)%Q ->
      twoPhaseSatKrw params Sw = eval_ (krwSamples params) Sw /\
      twoPhaseSatDKrw_dSw params Sw = evalDeriv_ (krwSamples params) Sw) /\
  (strictly_increasing (krwSamples params) = true ->
   forall (Sw : Scalar) (i : Z) (l r : Scalar * Scalar),
      at_ (krwSamples params) i = Ret l ->
      at_ (krwSamples params) (i + 1) = Ret r ->
      (fst l <= Sw)%Q -> (i = 0 \/ (fst l < Sw)%Q) -> (Sw <= fst r)%Q ->
      twoPhaseSatKrw params Sw
      = Ret (snd l + (snd r - snd l) * ((Sw - fst l) / (fst r - fst l)))%Q /\
      twoPhaseSatDKrw_dSw params Sw
      = Ret ((snd r - snd l) / (fst r - fst l))%Q).
Proof.
  intros Hf Hb Hfb.
  assert (Hbelow : forall Sw, (Sw < fst f)%Q ->
             twoPhaseSatKrw params Sw = Ret (snd f) /\
             twoPhaseSatDKrw_dSw params Sw = Ret 0%Q).
  { intros Sw HSw. apply Slt_true in HSw.
    unfold twoPhaseSatKrw, twoPhaseSatDKrw_dSw. rewrite Hf. simpl bind.
    rewrite HSw. split; reflexivity. }
  assert (Habove : forall Sw, (fst b < Sw)%Q ->
             twoPhaseSatKrw params Sw = Ret (snd b) /\
             twoPhaseSatDKrw_dSw params Sw = Ret 0%Q).
  { intros Sw HSw.
    assert (Hnb : Slt Sw (fst f) = false) by (apply Slt_false; lra).
    apply Slt_true in HSw.
    unfold twoPhaseSatKrw, twoPhaseSatDKrw_dSw, Sgt. rewrite Hf. simpl bind.
    rewrite Hnb, Hb. simpl bind. rewrite HSw. split; reflexivity. }
  assert (Hinside : forall Sw, (fst f <= Sw)%Q -> (Sw <= fst b)%Q ->
             twoPhaseSatKrw params Sw = eval_ (krwSamples params) Sw /\
             twoPhaseSatDKrw_dSw params Sw = evalDeriv_ (krwSamples params) Sw).
  { intros Sw Hlo Hhi. apply Slt_false in Hlo. apply Slt_false in Hhi.
    unfold twoPhaseSatKrw, twoPhaseSatDKrw_dSw, Sgt. rewrite Hf. simpl bind.
    rewrite Hlo, Hb. simpl bind. rewrite Hhi. split; reflexivity. }
  split; [exact Hbelow|]. split; [exact Habove|]. split; [exact Hinside|].
  intros Hs Sw i l r Hl Hr Hlo Hleft Hhi.
  rewrite front_at in Hf. rewrite back_at in Hb.
  pose proof (at_Ret_bounds _ _ _ Hl) as Hil.
  pose proof (at_Ret_bounds _ _ _ Hr) as Hir.
  pose proof (knots_le _ Hs 0 i f l Hf Hl ltac:(lia)).
  pose proof (knots_le _ Hs (i + 1) (size (krwSamples params) - 1) r b Hr Hb ltac:(lia)).
  pose proof (knots_lt _ Hs i (i + 1) l r Hl Hr ltac:(lia)) as Hlr.
  destruct (Hinside Sw) as [-> ->]; try lra.
  apply (eval_on_segment _ Sw i l r); auto.
  destruct (Qlt_le_dec (fst l) Sw) as [Hlt|Hle].
  - apply (findSegmentIndex_sorted _ Sw i l r); auto.
  - destruct Hleft as [->|Hlt]; [|lra].
    apply (findSegmentIndex_first_knot _ Sw l); auto; [lia | lra].
Qed.

Lemma krw_clamps_outside_and_evaluates_segment_inside_witness :
  twoPhaseSatKrw example_params (1 # 10) = Ret 0%Q /\
  twoPhaseSatDKrw_dSw example_params (1 # 10) = Ret 0%Q /\
  twoPhaseSatKrw example_params (6 # 10)
  = Ret (0 + (1 - 0) * (((6 # 10) - (2 # 10)) / (1 - (2 # 10))))%Q.
Proof.
  destruct (krw_clamps_outside_and_evaluates_segment_inside
              example_params (2 # 10, 0)%Q (1, 1)%Q)
    as (Hbelow & _ & _ & Hin); try reflexivity.
  - vm_compute. discriminate.
  - destruct (Hbelow (1 # 10)%Q) as [Hv Hd]; [reflexivity|].
    split; [exact Hv|]. split; [exact Hd|].
    destruct (Hin eq_refl (6 # 10)%Q 0 (2 # 10, 0)%Q (1, 1)%Q) as [Hv' _];
      [ reflexivity | reflexivity | vm_compute; discriminate | left; reflexivity
      | vm_compute; discriminate | exact Hv' ].
Defined.

(** ** Axes the law does not depend on *)

Lemma fill_zero_two (values : Container) :
  size values = numPhases -> fill_zero values = Ret [0; 0]%Q.
Proof.
  unfold size, numPhases. intros Hsize.
  destruct values as [|a [|b [|c values]]]; simpl in Hsize; try lia.
  reflexivity.
Qed.

(** C7: on an output array with one entry per phase, each of the six
    pressure, temperature and mole-fraction derivatives returns the array
    with every entry exactly 0, whatever the parameters, the state (hence
    its saturations) and the index arguments. *)
Theorem independent_axes_give_zero
        {traits : Traits} (params : Params) (state : FluidState)
        (values : Container) (phaseIdx compIdx : Z) :
  size values = numPhases ->
  dCapillaryPressures_dPressure values params state phaseIdx = Ret [0; 0]%Q /\
  dCapillaryPressures_dTemperature values params state = Ret [0; 0]%Q /\
  dCapillaryPressures_dMoleFraction values params state phaseIdx compIdx = Ret [0; 0]%Q /\
  dRelativePermeabilities_dPressure values params state phaseIdx = Ret [0; 0]%Q /\
  dRelativePermeabilities_dTemperature values params state = Ret [0; 0]%Q /\
  dRelativePermeabilities_dMoleFraction values params state phaseIdx compIdx = Ret [0; 0]%Q.
Proof.
  intros Hsize.
  unfold dCapillaryPressures_dPressure, dCapillaryPressures_dTemperature,
    dCapillaryPressures_dMoleFraction, dRelativePermeabilities_dPressure,
    dRelativePermeabilities_dTemperature, dRelativePermeabilities_dMoleFraction.
  rewrite (fill_zero_two values Hsize). repeat split.
Qed.

Lemma independent_axes_give_zero_witness :
  dCapillaryPressures_dPressure [7; 9]%Q example_params (state_of (3 # 10) (7 # 10)) 1
    = Ret [0; 0]%Q /\
  dRelativePermeabilities_dMoleFraction [7; 9]%Q example_params
    (state_of (3 # 10) (7 # 10)) 0 1 = Ret [0; 0]%Q.
Proof.
  destruct (independent_axes_give_zero example_params (state_of (3 # 10) (7 # 10))
              [7; 9]%Q 1 1 eq_refl) as (H1 & _).
  destruct (independent_axes_give_zero example_params (state_of (3 # 10) (7 # 10))
              [7; 9]%Q 0 1 eq_refl) as (_ & _ & _ & _ & _ & H6).
  split; assumption.
Defined.

(** ** Operations the law does not support *)

(** C8: [Sw], [twoPhaseSatSw], [Sn], [twoPhaseSatSn] and [saturations] end
    with the logic error raised by [OPM_THROW] for every parameter object
    and every input, and never return a value. *)
Theorem inverse_operations_always_throw
        {traits : Traits} (params : Params) (fs : FluidState) (pC : Scalar)
        (values : Container) :
  Sw params fs = LogicError "Not implemented: Sw()" /\
  twoPhaseSatSw params pC = LogicError "Not implemented: twoPhaseSatSw()" /\
  Sn params fs = LogicError "Not implemented: Sw()" /\
  twoPhaseSatSn params pC = LogicError "Not implemented: twoPhaseSatSw()" /\
  saturations values params fs = LogicError "Not implemented: saturations()" /\
  (forall v, Sw params fs <> Ret v) /\
  (forall v, twoPhaseSatSw params pC <> Ret v) /\
  (forall v, Sn params fs <> Ret v) /\
  (forall v, twoPhaseSatSn params pC <> Ret v) /\
  (forall v, saturations values params fs <> Ret v).
Proof.
  repeat split; intros v; discriminate.
Qed.

(** ** The range assertion of twoPhaseSatDPcnw_dSw *)

Lemma bind_no_assertion {A B : Type} (m : outcome A) (k : A -> outcome B)
      (c : string) :
  m <> AssertionFailure c -> (forall a, k a <> AssertionFailure c) ->
  bind m k <> AssertionFailure c.
Proof.
  intros Hm Hk. destruct m; simpl; try discriminate; auto.
  intros [= ->]. apply Hm. reflexivity.
Qed.

Lemma div_no_assertion (a b : Scalar) (c : string) : div a b <> AssertionFailure c.
Proof. unfold div. destruct (Qeq_bool b 0); discriminate. Qed.

Lemma set_at_no_assertion (values : Container) (i : Z) (v : Scalar) (c : string) :
  set_at values i v <> AssertionFailure c.
Proof.
  unfold set_at. destruct ((i <? 0) || (size values <=? i)); discriminate.
Qed.

Lemma evalDeriv_no_assertion (samples : SamplePoints) (x : Scalar) (c : string) :
  2 <= size samples -> evalDeriv_ samples x <> AssertionFailure c.
Proof.
  intros Hsize.
  destruct (findSegmentIndex_brackets samples x Hsize)
    as (i & l & r & Hi & _ & Hl & Hr & _).
  destruct (eval_reduces samples x i l r Hsize Hi Hl Hr) as [_ ->].
  apply div_no_assertion.
Qed.

(** C10: [twoPhaseSatDPcnw_dSw] asserts [0 < Sw && Sw < 1].  For [Sw] in the
    open interval the assertion holds and the result is that of
    [evalDeriv_] on the capillary-pressure table, the quotient
    [(y_(i+1) - y_i) / (x_(i+1) - x_i)] of the selected segment; outside
    the interval the call ends with the failed assertion.
    [twoPhaseSatPcnw] and [dCapillaryPressures_dSaturation] fail no
    assertion, whatever the saturation. *)
Theorem only_twoPhaseSatDPcnw_dSw_asserts_saturation_range
        {traits : Traits} (params : Params) :
  2 <= size (pcnwSamples params) ->
  (forall Sw : Scalar, (0 < Sw)%Q -> (Sw < 1)%Q ->
      twoPhaseSatDPcnw_dSw params Sw = evalDeriv_ (pcnwSamples params) Sw /\
      exists (i : Z) (l r : Scalar * Scalar),
        findSegmentIndex_ (pcnwSamples params) Sw = Ret i /\
        at_ (pcnwSamples params) i = Ret l /\
        at_ (pcnwSamples params) (i + 1) = Ret r /\
        twoPhaseSatDPcnw_dSw params Sw = div (snd r - snd l)%Q (fst r - fst l)%Q) /\
  (forall Sw : Scalar, ~ ((0 < Sw)%Q /\ (Sw < 1)%Q) ->
      twoPhaseSatDPcnw_dSw params Sw = AssertionFailure "0 < Sw && Sw < 1") /\
  (forall (Sw : Scalar) (c : string),
      twoPhaseSatPcnw params Sw <> AssertionFailure c) /\
  (forall (values : Container) (state : FluidState) (satPhaseIdx : Z) (c : string),
      dCapillaryPressures_dSaturation values params state satPhaseIdx
      <> AssertionFailure c).
Proof.
  intros Hsize. split; [|split; [|split]].
  - intros Sw0 Hpos Hlt1.
    assert (Hgo : twoPhaseSatDPcnw_dSw params Sw0
                  = evalDeriv_ (pcnwSamples params) Sw0).
    { apply Slt_true in Hpos, Hlt1. unfold twoPhaseSatDPcnw_dSw.
      rewrite Hpos, Hlt1. reflexivity. }
    split; [exact Hgo|].
    destruct (findSegmentIndex_brackets (pcnwSamples params) Sw0 Hsize)
      as (i & l & r & Hi & _ & Hl & Hr & _).
    destruct (eval_reduces _ Sw0 i l r Hsize Hi Hl Hr) as [_ Hd].
    exists i, l, r. rewrite Hgo. repeat split; assumption.
  - intros Sw0 Hout. unfold twoPhaseSatDPcnw_dSw.
    destruct (Slt 0 Sw0) eqn:E0; [|reflexivity].
    destruct (Slt Sw0 1) eqn:E1; [|reflexivity].
    apply Slt_true in E0, E1. tauto.
  - intros Sw0 c. apply evalDeriv_no_assertion. assumption.
  - intros values state satPhaseIdx c. unfold dCapillaryPressures_dSaturation.
    apply bind_no_assertion; [apply set_at_no_assertion | intros v1].
    apply bind_no_assertion; [apply set_at_no_assertion | intros v2].
    destruct (satPhaseIdx =? wPhaseIdx); [|discriminate].
    apply bind_no_assertion; [|intros d; apply set_at_no_assertion].
    apply evalDeriv_no_assertion. assumption.
Qed.

Lemma only_twoPhaseSatDPcnw_dSw_asserts_saturation_range_witness :
  returns (twoPhaseSatDPcnw_dSw example_params (1 # 4)) 2000 /\
  twoPhaseSatDPcnw_dSw example_params (3 # 2) = AssertionFailure "0 < Sw && Sw < 1" /\
  returns (twoPhaseSatPcnw example_params (3 # 2)) 4000.
Proof.
  destruct (only_twoPhaseSatDPcnw_dSw_asserts_saturation_range example_params)
    as (Hin & Hout & _).
  - vm_compute. discriminate.
  - destruct (Hin (1 # 4)%Q) as [Hd _]; try reflexivity.
    split; [|split].
    + rewrite Hd. eexists. split; [vm_compute; reflexivity | reflexivity].
    + apply Hout. intros [_ H]. vm_compute in H. discriminate.
    + eexists. split; [vm_compute; reflexivity | reflexivity].
Defined.

(** ** Capillary pressure: value against slope *)

Lemma twoPhaseSatPcnw_is_evalDeriv {traits : Traits} (params : Params) (Sw : Scalar) :
  twoPhaseSatPcnw params Sw = evalDeriv_ (pcnwSamples params) Sw.
Proof. reflexivity. Qed.

(** C1 (defect in the code): [twoPhaseSatPcnw] is meant to return the
    piecewise-linear interpolation of the capillary-pressure table, which is
    what [eval_] computes: 500 at [Sw = 1/4] and -200 at [Sw = -1/10] on the
    table [(0,0); (1/2,1000); (1,3000)].  Its body calls [evalDeriv_]
    instead, so it returns the slope of the selected segment, 2000 at both
    saturations. *)
Theorem twoPhaseSatPcnw_returns_slope_not_value :
  returns (twoPhaseSatPcnw example_params (1 # 4)) 2000 /\
  ~ returns (twoPhaseSatPcnw example_params (1 # 4)) 500 /\
  returns (eval_ (pcnwSamples example_params) (1 # 4)) 500 /\
  returns (twoPhaseSatPcnw example_params (- 1 # 10)) 2000 /\
  ~ returns (twoPhaseSatPcnw example_params (- 1 # 10)) (- 200) /\
  returns (eval_ (pcnwSamples example_params) (- 1 # 10)) (- 200).
Proof.
  repeat split;
    try (eexists; split; [vm_compute; reflexivity | reflexivity]);
    intros (v & Hv & Hq); vm_compute in Hv; injection Hv as <-;
    vm_compute in Hq; discriminate.
Qed.

(** ** Saturation derivatives of the array-filling entry points *)

(** What [dCapillaryPressures_dSaturation] and the wetting branch of
    [dRelativePermeabilities_dSaturation] write into an array with one entry
    per phase. *)
Lemma dSaturation_slots {traits : Traits} (params : Params) (state : FluidState)
      (values : Container) (satPhaseIdx : Z) (d : Scalar) :
  size values = numPhases ->
  (satPhaseIdx <> wPhaseIdx ->
   exists out, dCapillaryPressures_dSaturation values params state satPhaseIdx = Ret out /\
               at_ out wPhaseIdx = Ret 0%Q /\ at_ out nPhaseIdx = Ret 0%Q) /\
  (satPhaseIdx = wPhaseIdx ->
   evalDeriv_ (pcnwSamples params) (saturation state wPhaseIdx) = Ret d ->
   exists out, dCapillaryPressures_dSaturation values params state satPhaseIdx = Ret out /\
               at_ out wPhaseIdx = Ret 0%Q /\ at_ out nPhaseIdx = Ret d) /\
  (satPhaseIdx = wPhaseIdx ->
   evalDeriv_ (krwSamples params) (saturation state wPhaseIdx) = Ret d ->
   exists out, dRelativePermeabilities_dSaturation values params state satPhaseIdx = Ret out /\
               at_ out wPhaseIdx = Ret d /\ at_ out nPhaseIdx = Ret 0%Q).
Proof.
  intros Hsize.
  destruct values as [|a [|b [|c values]]]; unfold size, numPhases in Hsize;
    simpl in Hsize; try lia.
  unfold dCapillaryPressures_dSaturation, dRelativePermeabilities_dSaturation.
  pose proof wPhaseIdx_in_range as Hw. pose proof nPhaseIdx_in_range as Hn.
  pose proof phases_differ as Hwn. unfold numPhases in Hw, Hn.
  assert (Hcase : wPhaseIdx = 0 /\ nPhaseIdx = 1 \/ wPhaseIdx = 1 /\ nPhaseIdx = 0)
    by lia.
  destruct Hcase as [[-> ->]|[-> ->]];
    (split; [|split]);
    [ intros Hne | intros -> Hd | intros -> Hd
    | intros Hne | intros -> Hd | intros -> Hd ];
    try (apply Z.eqb_neq in Hne; rewrite Hne);
    try rewrite Z.eqb_refl; try rewrite Hd;
    eexists; (split; [reflexivity|]); split; reflexivity.
Qed.

(** C2 (defect in the code): with [satPhaseIdx] the non-wetting index,
    [dRelativePermeabilities_dSaturation] is meant to write minus the slope
    of the non-wetting table at [1 - Sn] into the non-wetting slot.  It
    differentiates [krwSamples] instead: with wetting table
    [(2/10,0); (1,1)], non-wetting table [(4/10,1); (9/10,0)] and [Sn = 1/2]
    it writes -5/4, minus the wetting slope, where minus the non-wetting
    slope is 2. *)
Theorem dRelativePermeabilities_dSaturation_differentiates_krw_table :
  exists d : Scalar,
    dRelativePermeabilities_dSaturation
      [0; 0]%Q example_params (state_of (1 # 2) (1 # 2)) nPhaseIdx
    = Ret [0%Q; d] /\
    (d == - (5 # 4))%Q /\
    returns (evalDeriv_ (krwSamples example_params) (1 - (1 # 2))) (5 # 4) /\
    returns (evalDeriv_ (krnSamples example_params) (1 - (1 # 2))) (- 2) /\
    ~ (d == - - 2)%Q.
Proof.
  eexists. split; [vm_compute; reflexivity|].
  split; [reflexivity|].
  split; [eexists; split; [vm_compute; reflexivity | reflexivity]|].
  split; [eexists; split; [vm_compute; reflexivity | reflexivity]|].
  vm_compute. discriminate.
Qed.

(** ** Relative permeability of the non-wetting phase *)

Lemma twoPhaseSatKrn_clamps {traits : Traits} (params : Params)
      (f b : Scalar * Scalar) (Sw : Scalar) :
  front (krnSamples params) = Ret f ->
  back (krnSamples params) = Ret b ->
  (fst f <= fst b)%Q ->
  ((Sw < fst f)%Q -> twoPhaseSatKrn params Sw = Ret (snd f)) /\
  ((fst b < Sw)%Q -> twoPhaseSatKrn params Sw = Ret (snd b)).
Proof.
  intros Hf Hb Hfb. unfold twoPhaseSatKrn, Sgt. rewrite Hf. simpl bind. split.
  - intros H. apply Slt_true in H. rewrite H. reflexivity.
  - intros H. assert (Hnb : Slt Sw (fst f) = false) by (apply Slt_false; lra).
    apply Slt_true in H. rewrite Hnb, Hb. simpl bind. rewrite H. reflexivity.
Qed.

Lemma krn_uses_wetting_coordinate {traits : Traits} (params : Params)
      (state : FluidState) :
  krn params state = twoPhaseSatKrn params (1 - saturation state nPhaseIdx)%Q.
Proof. reflexivity. Qed.

(** C4 (defect in the code): below the first knot of the non-wetting table
    [twoPhaseSatDKrn_dSw] is meant to return exactly 0.  Its two range tests
    read [krwSamples], not [krnSamples]: with wetting table
    [(2/10,0); (1,1)] and non-wetting table [(4/10,1); (9/10,0)], the
    saturation 3/10 lies below the first non-wetting knot, where
    [twoPhaseSatKrn] returns the first y-value 1, yet inside the wetting
    table's domain, and [twoPhaseSatDKrn_dSw] returns the slope -2 of the
    first non-wetting segment. *)
Theorem twoPhaseSatDKrn_dSw_tests_krw_domain :
  front (krnSamples example_params) = Ret (4 # 10, 1)%Q /\
  (3 # 10 < 4 # 10)%Q /\
  twoPhaseSatKrn example_params (3 # 10) = Ret 1%Q /\
  returns (twoPhaseSatDKrn_dSw example_params (3 # 10)) (- 2) /\
  ~ returns (twoPhaseSatDKrn_dSw example_params (3 # 10)) 0.
Proof.
  repeat split.
  - eexists. split; [vm_compute; reflexivity | reflexivity].
  - intros (v & Hv & Hq). vm_compute in Hv. injection Hv as <-.
    vm_compute in Hq. discriminate.
Qed.

(** * Further properties of the evaluator and of the law *)

(** ** The segment search on a strictly increasing table *)

(** [selects T x i]: segment [i] is the one that [x] falls into, the first
    and the last segment taking what lies outside the domain. *)
Lemma selects_unique (T : SamplePoints) (x : Scalar) (i j : Z) :
  strictly_increasing T = true ->
  0 <= i <= size T - 2 -> 0 <= j <= size T - 2 ->
  (i = 0 \/ exists l, at_ T i = Ret l /\ (fst l < x)%Q) ->
  (i = size T - 2 \/ exists r, at_ T (i + 1) = Ret r /\ (x <= fst r)%Q) ->
  (j = 0 \/ exists l, at_ T j = Ret l /\ (fst l < x)%Q) ->
  (j = size T - 2 \/ exists r, at_ T (j + 1) = Ret r /\ (x <= fst r)%Q) ->
  i = j.
Proof.
  intros Hs Hi Hj Hil Hir Hjl Hjr.
  destruct (Z.lt_trichotomy i j) as [Hlt|[Heq|Hgt]]; [|assumption|]; exfalso.
  - destruct Hjl as [?|(l & Hl & Hlx)]; [lia|].
    destruct Hir as [?|(r & Hr & Hxr)]; [lia|].
    pose proof (knots_le T Hs (i + 1) j r l Hr Hl ltac:(lia)). lra.
  - destruct Hil as [?|(l & Hl & Hlx)]; [lia|].
    destruct Hjr as [?|(r & Hr & Hxr)]; [lia|].
    pose proof (knots_le T Hs (j + 1) i r l Hr Hl ltac:(lia)). lra.
Qed.

Lemma findSegmentIndex_selects (T : SamplePoints) (x : Scalar) :
  2 <= size T -> strictly_increasing T = true ->
  exists i, findSegmentIndex_ T x = Ret i /\
    0 <= i <= size T - 2 /\
    (i = 0 \/ exists l, at_ T i = Ret l /\ (fst l < x)%Q) /\
    (i = size T - 2 \/ exists r, at_ T (i + 1) = Ret r /\ (x <= fst r)%Q).
Proof.
  intros Hsize Hs.
  destruct (findSegmentIndex_spec T x Hsize)
    as (i & l & r & f & b & Hi & Hrange & Hl & Hr & Hf & Hb & Hcases).
  exists i. split; [exact Hi|]. split; [exact Hrange|].
  destruct Hcases as [[Ha Hlast]|[(Hxb & Hbelow & Hz)|(_ & _ & Hleft & Hright)]].
  - split; [|left; assumption]. right. exists l. split; [assumption|].
    pose proof (knots_le T Hs i (size T - 1) l b Hl Hb ltac:(lia)). lra.
  - split; [left; assumption|]. right. exists r. split; [assumption|].
    pose proof (knots_le T Hs 0 (i + 1) f r Hf Hr ltac:(lia)). lra.
  - split.
    + destruct Hleft as [?|Hlx]; [left; assumption | right; exists l; auto].
    + destruct Hright as [?|Hxr]; [left; lia | right; exists r; auto].
Qed.

(** X1: on a table with at least two strictly increasing knots, the search
    returns [i] exactly when [i] is a segment index with [x_i < x] (or
    [i] the first segment) and [x <= x_(i+1)] (or [i] the last segment):
    the bisection finds the one segment that a scan from the left would. *)
Theorem findSegmentIndex_characterised (T : SamplePoints) (x : Scalar) (i : Z) :
  2 <= size T -> strictly_increasing T = true ->
  (findSegmentIndex_ T x = Ret i <->
   0 <= i <= size T - 2 /\
   (i = 0 \/ exists l, at_ T i = Ret l /\ (fst l < x)%Q) /\
   (i = size T - 2 \/ exists r, at_ T (i + 1) = Ret r /\ (x <= fst r)%Q)).
Proof.
  intros Hsize Hs.
  destruct (findSegmentIndex_selects T x Hsize Hs) as (j & Hj & Hjr & Hjl & Hjh).
  split.
  - intros Hi. assert (i = j) by congruence. subst j. auto.
  - intros (Hir & Hil & Hih). rewrite Hj. f_equal.
    apply (selects_unique T x j i); assumption.
Qed.

Lemma findSegmentIndex_characterised_witness :
  findSegmentIndex_ pc_table (3 # 4) = Ret 1.
Proof.
  apply (findSegmentIndex_characterised pc_table (3 # 4) 1).
  - vm_compute. discriminate.
  - reflexivity.
  - split; [vm_compute; split; discriminate|]. split.
    + right. exists (1 # 2, 1000)%Q. split; reflexivity.
    + left. reflexivity.
Defined.

(** ** Inside and outside the domain *)

Lemma eval_in_domain (T : SamplePoints) (x : Scalar) (f b : Scalar * Scalar) :
  strictly_increasing T = true -> 2 <= size T ->
  front T = Ret f -> back T = Ret b ->
  (fst f <= x)%Q -> (x <= fst b)%Q ->
  exists (i : Z) (l r : Scalar * Scalar),
    at_ T i = Ret l /\ at_ T (i + 1) = Ret r /\
    (fst l <= x)%Q /\ (x <= fst r)%Q /\ (fst l < fst r)%Q /\
    eval_ T x = Ret (snd l + (snd r - snd l) * ((x - fst l) / (fst r - fst l)))%Q /\
    evalDeriv_ T x = Ret ((snd r - snd l) / (fst r - fst l))%Q.
Proof.
  intros Hs Hsize Hf Hb Hlo Hhi.
  destruct (findSegmentIndex_brackets T x Hsize)
    as (i & l & r & Hi & Hrange & Hl & Hr & Hbr).
  destruct (Hbr f b Hf Hb Hlo Hhi) as [Hlx Hxr].
  pose proof (knots_lt T Hs i (i + 1) l r Hl Hr ltac:(lia)) as Hlr.
  destruct (eval_on_segment T x i l r Hi Hl Hr Hlr) as [He Hd].
  exists i, l, r. repeat split; assumption.
Qed.

(** X2: on a table with strictly increasing knots, a query below the first
    knot is evaluated on the first segment and a query above the last knot
    on the last one: [evalDeriv_] returns that segment's quotient and
    [eval_] evaluates that segment's interpolation formula at the query,
    outside the segment, without clamping. *)
Theorem evaluator_extrapolates_linearly
        (T : SamplePoints) (f f' b' b : Scalar * Scalar) (x : Scalar) :
  strictly_increasing T = true ->
  at_ T 0 = Ret f -> at_ T 1 = Ret f' ->
  at_ T (size T - 2) = Ret b' -> at_ T (size T - 1) = Ret b ->
  ((x < fst f)%Q ->
   findSegmentIndex_ T x = Ret 0 /\
   evalDeriv_ T x = Ret ((snd f' - snd f) / (fst f' - fst f))%Q /\
   eval_ T x
   = Ret (snd f + (snd f' - snd f) * ((x - fst f) / (fst f' - fst f)))%Q) /\
  ((fst b < x)%Q ->
   findSegmentIndex_ T x = Ret (size T - 2) /\
   evalDeriv_ T x = Ret ((snd b - snd b') / (fst b - fst b'))%Q /\
   eval_ T x
   = Ret (snd b' + (snd b - snd b') * ((x - fst b') / (fst b - fst b')))%Q).
Proof.
  intros Hs Hf Hf' Hb' Hb.
  pose proof (at_Ret_bounds _ _ _ Hf') as Hsize.
  pose proof (knots_lt T Hs 0 1 f f' Hf Hf' ltac:(lia)) as Hff.
  pose proof (knots_lt T Hs (size T - 2) (size T - 1) b' b Hb' Hb ltac:(lia)) as Hbb.
  pose proof (knots_le T Hs 0 (size T - 1) f b Hf Hb ltac:(lia)) as Hfb.
  split; intros Hx.
  - assert (Hi : findSegmentIndex_ T x = Ret 0).
    { apply (findSegmentIndex_below T x f b); try lia; try lra.
      - rewrite front_at. assumption.
      - rewrite back_at. assumption. }
    destruct (eval_on_segment T x 0 f f' Hi Hf Hf' Hff) as [He Hd].
    repeat split; assumption.
  - assert (Hi : findSegmentIndex_ T x = Ret (size T - 2)).
    { apply (findSegmentIndex_above T x b); try lia; try lra.
      rewrite back_at. assumption. }
    replace (size T - 1) with (size T - 2 + 1) in Hb by lia.
    destruct (eval_on_segment T x (size T - 2) b' b Hi Hb' Hb Hbb) as [He Hd].
    repeat split; assumption.
Qed.

Lemma evaluator_extrapolates_linearly_witness :
  evalDeriv_ pc_table (- 1 # 10) = Ret ((1000 - 0) / ((1 # 2) - 0))%Q /\
  eval_ pc_table (3 # 2)
  = Ret (1000 + (3000 - 1000) * (((3 # 2) - (1 # 2)) / (1 - (1 # 2))))%Q.
Proof.
  destruct (evaluator_extrapolates_linearly pc_table (0, 0)%Q (1 # 2, 1000)%Q
              (1 # 2, 1000)%Q (1, 3000)%Q (- 1 # 10)%Q) as [Hlow _];
    [reflexivity | reflexivity | reflexivity | reflexivity | reflexivity |].
  destruct (evaluator_extrapolates_linearly pc_table (0, 0)%Q (1 # 2, 1000)%Q
              (1 # 2, 1000)%Q (1, 3000)%Q (3 # 2)%Q) as [_ Hhigh];
    [reflexivity | reflexivity | reflexivity | reflexivity | reflexivity |].
  destruct (Hlow eq_refl) as (_ & Hd & _).
  destruct (Hhigh eq_refl) as (_ & _ & He).
  split; assumption.
Defined.

(** ** Tables with non-decreasing values *)

Lemma nondecreasing_values_head (t : SamplePoints) :
  forall (p q : Scalar * Scalar) (j : nat),
    nondecreasing_values (p :: t) = true -> nth_error t j = Some q ->
    (snd p <= snd q)%Q.
Proof.
  induction t as [|a t IH]; intros p q j Hs Hq.
  - destruct j; discriminate.
  - simpl in Hs. apply andb_prop in Hs as [Hpa Hrest]. apply Sle_true in Hpa.
    destruct j as [|j]; simpl in Hq.
    + injection Hq as <-. assumption.
    + specialize (IH a q j Hrest Hq). lra.
Qed.

Lemma nondecreasing_values_tail (p : Scalar * Scalar) (t : SamplePoints) :
  nondecreasing_values (p :: t) = true -> nondecreasing_values t = true.
Proof.
  destruct t as [|q t]; [reflexivity|].
  simpl. intros H. apply andb_prop in H. tauto.
Qed.

Lemma values_le (T : SamplePoints) (i j : Z) (p q : Scalar * Scalar) :
  nondecreasing_values T = true ->
  at_ T i = Ret p -> at_ T j = Ret q -> i <= j ->
  (snd p <= snd q)%Q.
Proof.
  intros Hs Hp Hq Hij.
  destruct (Z.eq_dec i j) as [->|Hne].
  { replace q with p by congruence. lra. }
  apply at_Ret_iff in Hp as [Hi Hp]. apply at_Ret_iff in Hq as [Hj Hq].
  assert (Hlt : (Z.to_nat i < Z.to_nat j)%nat) by lia.
  clear Hij Hne Hi Hj. revert Hs Hp Hq Hlt.
  generalize (Z.to_nat i) (Z.to_nat j). clear i j.
  induction T as [|a T IH]; intros i j Hs Hp Hq Hij.
  - destruct i; discriminate.
  - destruct j as [|j]; [lia|]. simpl in Hq. destruct i as [|i]; simpl in Hp.
    + injection Hp as <-. eapply nondecreasing_values_head; eassumption.
    + apply (IH i j); [eapply nondecreasing_values_tail; eassumption | | | lia];
        assumption.
Qed.

(** ** Tables with fewer than two points *)

Lemma findSegmentIndex_short (samples : SamplePoints) (x : Scalar) :
  size samples < 2 -> findSegmentIndex_ samples x = AssertionFailure "n >= 1".
Proof.
  intros Hshort. unfold findSegmentIndex_.
  assert (E : (1 <=? size samples - 1) = false) by (apply Z.leb_gt; lia).
  rewrite E. reflexivity.
Qed.

(** X5: a table with fewer than two points makes the segment search fail
    its assertion [n >= 1] for every query, and with it [eval_],
    [evalDeriv_], [twoPhaseSatPcnw], [pcnw] and, on the wetting axis,
    [dCapillaryPressures_dSaturation]; on any other axis
    [dCapillaryPressures_dSaturation] never looks at the table and returns
    the zero array. *)
Theorem short_table_fails_the_size_assertion
        {traits : Traits} (params : Params) (fs : FluidState) (values : Container)
        (x : Scalar) (satPhaseIdx : Z) :
  size (pcnwSamples params) < 2 ->
  size values = numPhases ->
  findSegmentIndex_ (pcnwSamples params) x = AssertionFailure "n >= 1" /\
  eval_ (pcnwSamples params) x = AssertionFailure "n >= 1" /\
  evalDeriv_ (pcnwSamples params) x = AssertionFailure "n >= 1" /\
  twoPhaseSatPcnw params x = AssertionFailure "n >= 1" /\
  pcnw params fs = AssertionFailure "n >= 1" /\
  capillaryPressures values params fs = AssertionFailure "n >= 1" /\
  dCapillaryPressures_dSaturation values params fs wPhaseIdx
    = AssertionFailure "n >= 1" /\
  (satPhaseIdx <> wPhaseIdx ->
   dCapillaryPressures_dSaturation values params fs satPhaseIdx = Ret [0; 0]%Q).
Proof.
  intros Hshort Hsize.
  assert (Hd : forall y, evalDeriv_ (pcnwSamples params) y = AssertionFailure "n >= 1")
    by (intros y; unfold evalDeriv_; rewrite findSegmentIndex_short by assumption;
        reflexivity).
  destruct values as [|a [|b [|c values]]]; unfold size, numPhases in Hsize;
    simpl in Hsize; try lia.
  pose proof wPhaseIdx_in_range as Hw. pose proof nPhaseIdx_in_range as Hn.
  pose proof phases_differ as Hwn. unfold numPhases in Hw, Hn.
  split; [apply findSegmentIndex_short; assumption|].
  split; [unfold eval_; rewrite findSegmentIndex_short by assumption; reflexivity|].
  split; [apply Hd|]. split; [apply Hd|]. split; [apply Hd|].
  unfold capillaryPressures, pcnw, twoPhaseSatPcnw, dCapillaryPressures_dSaturation.
  rewrite Z.eqb_refl, !Hd.
  assert (Hcase : wPhaseIdx = 0 /\ nPhaseIdx = 1 \/ wPhaseIdx = 1 /\ nPhaseIdx = 0)
    by lia.
  destruct Hcase as [[Ew En]|[Ew En]]; rewrite Ew, En;
    (split; [reflexivity|]); (split; [reflexivity|]);
    intros Hne; apply Z.eqb_neq in Hne; rewrite Hne; reflexivity.
Qed.

Lemma short_table_fails_the_size_assertion_witness :
  twoPhaseSatPcnw {| pcnwSamples := [(1 # 2, 1000)%Q];
                     krwSamples := krw_table; krnSamples := krn_table |} (1 # 2)
  = AssertionFailure "n >= 1".
Proof.
  destruct (short_table_fails_the_size_assertion
              {| pcnwSamples := [(1 # 2, 1000)%Q];
                 krwSamples := krw_table; krnSamples := krn_table |}
              (state_of (1 # 2) (1 # 2)) [0; 0]%Q (1 # 2)%Q 1)
    as (_ & _ & _ & H & _); [reflexivity | reflexivity | exact H].
Defined.

(** X6: on a wetting-phase table with a single point [(x0, y0)] the two
    range tests of [twoPhaseSatKrw] answer every saturation other than [x0]
    with [y0] (and [twoPhaseSatDKrw_dSw] with 0); the saturation [x0] itself
    reaches the segment search and fails its assertion [n >= 1]. *)
Theorem single_point_relperm_table
        {traits : Traits} (params : Params) (p : Scalar * Scalar) (Sw : Scalar) :
  krwSamples params = [p] ->
  (~ (Sw == fst p)%Q ->
   twoPhaseSatKrw params Sw = Ret (snd p) /\
   twoPhaseSatDKrw_dSw params Sw = Ret 0%Q) /\
  ((Sw == fst p)%Q ->
   twoPhaseSatKrw params Sw = AssertionFailure "n >= 1" /\
   twoPhaseSatDKrw_dSw params Sw = AssertionFailure "n >= 1").
Proof.
  intros Htable. unfold twoPhaseSatKrw, twoPhaseSatDKrw_dSw, Sgt.
  rewrite Htable. simpl bind. split.
  - intros Hne. destruct (Slt Sw (fst p)) eqn:Hlt; [split; reflexivity|].
    apply Slt_false in Hlt.
    assert (Hgt : Slt (fst p) Sw = true).
    { apply Slt_true. destruct (Qlt_le_dec (fst p) Sw) as [|Hle]; [assumption|].
      exfalso. apply Hne. lra. }
    rewrite Hgt. split; reflexivity.
  - intros Heq.
    assert (H1 : Slt Sw (fst p) = false) by (apply Slt_false; lra).
    assert (H2 : Slt (fst p) Sw = false) by (apply Slt_false; lra).
    rewrite H1, H2. split; reflexivity.
Qed.

Lemma single_point_relperm_table_witness :
  twoPhaseSatKrw {| pcnwSamples := pc_table; krwSamples := [(1 # 2, 1 # 3)%Q];
                    krnSamples := krn_table |} (1 # 4) = Ret (1 # 3)%Q /\
  twoPhaseSatKrw {| pcnwSamples := pc_table; krwSamples := [(1 # 2, 1 # 3)%Q];
                    krnSamples := krn_table |} (1 # 2) = AssertionFailure "n >= 1".
Proof.
  split.
  - apply (single_point_relperm_table
             {| pcnwSamples := pc_table; krwSamples := [(1 # 2, 1 # 3)%Q];
                krnSamples := krn_table |} (1 # 2, 1 # 3)%Q (1 # 4)%Q eq_refl).
    vm_compute. discriminate.
  - apply (single_point_relperm_table
             {| pcnwSamples := pc_table; krwSamples := [(1 # 2, 1 # 3)%Q];
                krnSamples := krn_table |} (1 # 2, 1 # 3)%Q (1 # 2)%Q eq_refl).
    reflexivity.
Defined.

(** ** The arrays filled by the law *)

(** X7: on an array with one entry per phase, [capillaryPressures] returns
    an array of the same size holding 0 in the wetting slot and the result
    of [pcnw] in the non-wetting slot, and [relativePermeabilities] one
    holding the results of [krw] and [krn]; since the two phase indices are
    distinct and below 2, no entry of the incoming array survives. *)
Theorem value_arrays_are_fully_written
        {traits : Traits} (params : Params) (fs : FluidState) (values : Container)
        (pc kw kn : Scalar) :
  size values = numPhases ->
  pcnw params fs = Ret pc -> krw params fs = Ret kw -> krn params fs = Ret kn ->
  (exists out, capillaryPressures values params fs = Ret out /\
               size out = numPhases /\
               at_ out wPhaseIdx = Ret 0%Q /\ at_ out nPhaseIdx = Ret pc) /\
  (exists out, relativePermeabilities values params fs = Ret out /\
               size out = numPhases /\
               at_ out wPhaseIdx = Ret kw /\ at_ out nPhaseIdx = Ret kn).
Proof.
  intros Hsize Hpc Hkw Hkn.
  destruct values as [|a [|b [|c values]]]; unfold size, numPhases in Hsize;
    simpl in Hsize; try lia.
  unfold capillaryPressures, relativePermeabilities. rewrite Hpc, Hkw, Hkn.
  pose proof wPhaseIdx_in_range as Hw. pose proof nPhaseIdx_in_range as Hn.
  pose proof phases_differ as Hwn. unfold numPhases in Hw, Hn.
  assert (Hcase : wPhaseIdx = 0 /\ nPhaseIdx = 1 \/ wPhaseIdx = 1 /\ nPhaseIdx = 0)
    by lia.
  destruct Hcase as [[Ew En]|[Ew En]]; rewrite Ew, En;
    split; eexists; (split; [reflexivity|]); repeat split.
Qed.

Lemma value_arrays_are_fully_written_witness :
  exists out, relativePermeabilities [7; 9]%Q example_params
                (state_of (6 # 10) (4 # 10)) = Ret out /\
              size out = numPhases /\
              at_ out wPhaseIdx = Ret (400 # 800)%Q /\
              at_ out nPhaseIdx = Ret (3000 # 5000)%Q.
Proof.
  destruct (value_arrays_are_fully_written example_params
              (state_of (6 # 10) (4 # 10)) [7; 9]%Q
              4000 (400 # 800) (3000 # 5000))
    as [_ H]; try reflexivity.
  exact H.
Defined.

Lemma set_at_in_range (values : Container) (i : Z) (v : Scalar) :
  0 <= i < size values -> set_at values i v = Ret (update values (Z.to_nat i) v).
Proof.
  intros Hi. unfold set_at.
  assert (E : ((i <? 0) || (size values <=? i)) = false).
  { apply orb_false_iff. split; [apply Z.ltb_ge | apply Z.leb_gt]; lia. }
  rewrite E. reflexivity.
Qed.

Lemma fill_zero_long (a b : Scalar) (rest : Container) :
  fill_zero (a :: b :: rest) = Ret (0 :: 0 :: rest)%Q.
Proof.
  unfold fill_zero. change (Z.to_nat numPhases) with 2%nat. cbn [for_each_phase].
  rewrite set_at_in_range by (unfold size; simpl List.length; lia).
  cbn [bind Z.to_nat update].
  rewrite set_at_in_range by (unfold size; simpl List.length; lia).
  reflexivity.
Qed.

Lemma fill_zero_short (values : Container) :
  size values < numPhases -> fill_zero values = OutOfBounds.
Proof.
  unfold size, numPhases. intros Hshort.
  destruct values as [|a [|b values]]; simpl in Hshort; try lia; reflexivity.
Qed.

(** X8: the six zero-filling derivatives write entries 0 and 1 only.  On an
    array with more than two entries the entries from index 2 on are
    returned unchanged; on an array with fewer than two entries the loop
    writes outside the array. *)
Theorem zero_fill_touches_two_entries
        {traits : Traits} (params : Params) (state : FluidState)
        (phaseIdx compIdx : Z) (values : Container) :
  (forall (a b : Scalar) (rest : Container),
      values = a :: b :: rest ->
      dCapillaryPressures_dPressure values params state phaseIdx
        = Ret (0 :: 0 :: rest)%Q /\
      dCapillaryPressures_dTemperature values params state
        = Ret (0 :: 0 :: rest)%Q /\
      dCapillaryPressures_dMoleFraction values params state phaseIdx compIdx
        = Ret (0 :: 0 :: rest)%Q /\
      dRelativePermeabilities_dPressure values params state phaseIdx
        = Ret (0 :: 0 :: rest)%Q /\
      dRelativePermeabilities_dTemperature values params state
        = Ret (0 :: 0 :: rest)%Q /\
      dRelativePermeabilities_dMoleFraction values params state phaseIdx compIdx
        = Ret (0 :: 0 :: rest)%Q) /\
  (size values < numPhases ->
      dCapillaryPressures_dPressure values params state phaseIdx = OutOfBounds /\
      dCapillaryPressures_dTemperature values params state = OutOfBounds /\
      dCapillaryPressures_dMoleFraction values params state phaseIdx compIdx
        = OutOfBounds /\
      dRelativePermeabilities_dPressure values params state phaseIdx = OutOfBounds /\
      dRelativePermeabilities_dTemperature values params state = OutOfBounds /\
      dRelativePermeabilities_dMoleFraction values params state phaseIdx compIdx
        = OutOfBounds).
Proof.
  unfold dCapillaryPressures_dPressure, dCapillaryPressures_dTemperature,
    dCapillaryPressures_dMoleFraction, dRelativePermeabilities_dPressure,
    dRelativePermeabilities_dTemperature, dRelativePermeabilities_dMoleFraction.
  split.
  - intros a b rest ->. rewrite fill_zero_long. repeat split.
  - intros Hshort. rewrite fill_zero_short by assumption. repeat split.
Qed.

Lemma zero_fill_touches_two_entries_witness :
  dRelativePermeabilities_dTemperature [7; 9; 11]%Q example_params
    (state_of (3 # 10) (7 # 10)) = Ret [0; 0; 11]%Q /\
  dCapillaryPressures_dPressure [7]%Q example_params
    (state_of (3 # 10) (7 # 10)) 0 = OutOfBounds.
Proof.
  destruct (zero_fill_touches_two_entries example_params
              (state_of (3 # 10) (7 # 10)) 0 0 [7; 9; 11]%Q) as [Hlong _].
  destruct (zero_fill_touches_two_entries example_params
              (state_of (3 # 10) (7 # 10)) 0 0 [7]%Q) as [_ Hshort].
  destruct (Hlong 7%Q 9%Q [11]%Q eq_refl) as (_ & _ & _ & _ & H5 & _).
  destruct Hshort as (H1 & _); [vm_compute; reflexivity|].
  split; assumption.
Defined.

(** ** Scalar and array versions of the saturation derivatives *)

(** X9: the array function [dCapillaryPressures_dSaturation], on the wetting
    axis, writes the slope found by [evalDeriv_] into the non-wetting slot
    for every saturation of the state; the scalar function [dPcnw_dSw]
    returns that same slope when the state's wetting saturation lies in
    (0,1) and fails its range assertion otherwise, for instance on a fully
    saturated state. *)
Theorem capillary_slope_array_and_scalar_versions
        {traits : Traits} (params : Params) (state : FluidState)
        (values : Container) (d : Scalar) :
  size values = numPhases ->
  evalDeriv_ (pcnwSamples params) (saturation state wPhaseIdx) = Ret d ->
  (exists out,
      dCapillaryPressures_dSaturation values params state wPhaseIdx = Ret out /\
      at_ out wPhaseIdx = Ret 0%Q /\ at_ out nPhaseIdx = Ret d) /\
  ((0 < saturation state wPhaseIdx)%Q -> (saturation state wPhaseIdx < 1)%Q ->
   dPcnw_dSw params state = Ret d) /\
  (~ ((0 < saturation state wPhaseIdx)%Q /\ (saturation state wPhaseIdx < 1)%Q) ->
   dPcnw_dSw params state = AssertionFailure "0 < Sw && Sw < 1").
Proof.
  intros Hsize Hd. split; [|split].
  - destruct (dSaturation_slots params state values wPhaseIdx d Hsize) as (_ & H & _).
    apply H; [reflexivity | assumption].
  - intros H0 H1. apply Slt_true in H0, H1.
    unfold dPcnw_dSw, twoPhaseSatDPcnw_dSw. rewrite H0, H1. exact Hd.
  - intros Hout. unfold dPcnw_dSw, twoPhaseSatDPcnw_dSw.
    destruct (Slt 0 (saturation state wPhaseIdx)) eqn:E0; [|reflexivity].
    destruct (Slt (saturation state wPhaseIdx) 1) eqn:E1; [|reflexivity].
    apply Slt_true in E0, E1. tauto.
Qed.

Lemma capillary_slope_array_and_scalar_versions_witness :
  (exists out,
      dCapillaryPressures_dSaturation [7; 9]%Q example_params (state_of 1 0) wPhaseIdx
      = Ret out /\
      at_ out wPhaseIdx = Ret 0%Q /\ at_ out nPhaseIdx = Ret 4000%Q) /\
  dPcnw_dSw example_params (state_of 1 0) = AssertionFailure "0 < Sw && Sw < 1".
Proof.
  destruct (capillary_slope_array_and_scalar_versions example_params (state_of 1 0)
              [7; 9]%Q 4000%Q) as (Harray & _ & Hscalar); try reflexivity.
  split; [exact Harray|]. apply Hscalar.
  intros [_ H]. vm_compute in H. discriminate.
Defined.

(** X10: for the wetting-phase relative permeability the two versions differ
    outside the table's domain.  On a table with strictly increasing knots,
    [dRelativePermeabilities_dSaturation] on the wetting axis writes the
    slope of the selected segment into the wetting slot for every
    saturation: inside the domain that is what [twoPhaseSatDKrw_dSw]
    returns, but below the first knot and above the last one it is the
    slope of the first and of the last segment, where [twoPhaseSatDKrw_dSw]
    returns 0. *)
Theorem krw_slope_array_version_is_not_clamped
        {traits : Traits} (params : Params) (state : FluidState)
        (values : Container) (f f' b' b : Scalar * Scalar) :
  size values = numPhases ->
  strictly_increasing (krwSamples params) = true ->
  at_ (krwSamples params) 0 = Ret f ->
  at_ (krwSamples params) 1 = Ret f' ->
  at_ (krwSamples params) (size (krwSamples params) - 2) = Ret b' ->
  at_ (krwSamples params) (size (krwSamples params) - 1) = Ret b ->
  ((fst f <= saturation state wPhaseIdx)%Q ->
   (saturation state wPhaseIdx <= fst b)%Q ->
   exists d out,
     twoPhaseSatDKrw_dSw params (saturation state wPhaseIdx) = Ret d /\
     dRelativePermeabilities_dSaturation values params state wPhaseIdx = Ret out /\
     at_ out wPhaseIdx = Ret d /\ at_ out nPhaseIdx = Ret 0%Q) /\
  ((saturation state wPhaseIdx < fst f)%Q ->
   twoPhaseSatDKrw_dSw params (saturation state wPhaseIdx) = Ret 0%Q /\
   exists d out,
     dRelativePermeabilities_dSaturation values params state wPhaseIdx = Ret out /\
     at_ out wPhaseIdx = Ret d /\ at_ out nPhaseIdx = Ret 0%Q /\
     (d == (snd f' - snd f) / (fst f' - fst f))%Q) /\
  ((fst b < saturation state wPhaseIdx)%Q ->
   twoPhaseSatDKrw_dSw params (saturation state wPhaseIdx) = Ret 0%Q /\
   exists d out,
     dRelativePermeabilities_dSaturation values params state wPhaseIdx = Ret out /\
     at_ out wPhaseIdx = Ret d /\ at_ out nPhaseIdx = Ret 0%Q /\
     (d == (snd b - snd b') / (fst b - fst b'))%Q).
Proof.
  intros Hsize Hs Hf Hf' Hb' Hb.
  set (T := krwSamples params) in *. set (s := saturation state wPhaseIdx) in *.
  pose proof (at_Ret_bounds _ _ _ Hf') as Hlen.
  pose proof (knots_lt T Hs 0 1 f f' Hf Hf' ltac:(lia)) as Hff.
  pose proof (knots_lt T Hs (size T - 2) (size T - 1) b' b Hb' Hb ltac:(lia)) as Hbb.
  pose proof (knots_le T Hs 0 (size T - 1) f b Hf Hb ltac:(lia)) as Hfb.
  assert (Hfront : front T = Ret f) by (rewrite front_at; assumption).
  assert (Hback : back T = Ret b) by (rewrite back_at; assumption).
  assert (Harray : forall d, evalDeriv_ T s = Ret d ->
            exists out,
              dRelativePermeabilities_dSaturation values params state wPhaseIdx = Ret out /\
              at_ out wPhaseIdx = Ret d /\ at_ out nPhaseIdx = Ret 0%Q).
  { intros d Hd.
    destruct (dSaturation_slots params state values wPhaseIdx d Hsize) as (_ & _ & H).
    apply H; [reflexivity | assumption]. }
  split; [|split].
  - intros Hlo Hhi.
    destruct (eval_in_domain T s f b Hs ltac:(lia) Hfront Hback Hlo Hhi)
      as (i & l & r & _ & _ & _ & _ & _ & _ & Hd).
    destruct (Harray _ Hd) as (out & Hout & Hw & Hn).
    eexists. exists out. repeat split; try eassumption.
    apply Slt_false in Hlo. apply Slt_false in Hhi.
    unfold twoPhaseSatDKrw_dSw, Sgt. fold T. rewrite Hfront. simpl bind.
    rewrite Hlo, Hback. simpl bind. rewrite Hhi. exact Hd.
  - intros Hbelow. split.
    + apply Slt_true in Hbelow. unfold twoPhaseSatDKrw_dSw. fold T.
      rewrite Hfront. simpl bind. rewrite Hbelow. reflexivity.
    + assert (Hi : findSegmentIndex_ T s = Ret 0)
        by (apply (findSegmentIndex_below T s f b); try lia; try lra; assumption).
      destruct (eval_on_segment T s 0 f f' Hi Hf Hf' Hff) as [_ Hd].
      destruct (Harray _ Hd) as (out & Hout & Hw & Hn).
      eexists. exists out. repeat split; try eassumption; try reflexivity.
  - intros Habove. split.
    + assert (Hnb : Slt s (fst f) = false) by (apply Slt_false; lra).
      apply Slt_true in Habove. unfold twoPhaseSatDKrw_dSw, Sgt. fold T.
      rewrite Hfront. simpl bind. rewrite Hnb, Hback. simpl bind.
      rewrite Habove. reflexivity.
    + assert (Hi : findSegmentIndex_ T s = Ret (size T - 2))
        by (apply (findSegmentIndex_above T s b); try lia; try lra; assumption).
      replace (size T - 1) with (size T - 2 + 1) in Hb by lia.
      destruct (eval_on_segment T s (size T - 2) b' b Hi Hb' Hb Hbb) as [_ Hd].
      destruct (Harray _ Hd) as (out & Hout & Hw & Hn).
      eexists. exists out. repeat split; try eassumption; try reflexivity.
Qed.

Lemma krw_slope_array_version_is_not_clamped_witness :
  twoPhaseSatDKrw_dSw example_params (1 # 10) = Ret 0%Q /\
  exists d out,
    dRelativePermeabilities_dSaturation [7; 9]%Q example_params
      (state_of (1 # 10) (9 # 10)) wPhaseIdx = Ret out /\
    at_ out wPhaseIdx = Ret d /\ at_ out nPhaseIdx = Ret 0%Q /\
    (d == (1 - 0) / (1 - (2 # 10)))%Q.
Proof.
  destruct (krw_slope_array_version_is_not_clamped example_params
              (state_of (1 # 10) (9 # 10)) [7; 9]%Q
              (2 # 10, 0)%Q (1, 1)%Q (2 # 10, 0)%Q (1, 1)%Q)
    as (_ & Hbelow & _); try reflexivity.
  apply Hbelow. reflexivity.
Defined.

(** ** The non-wetting slope when both tables span the same range *)

(** X11: [twoPhaseSatDKrn_dSw] tests its argument against the first and the
    last knot of the wetting table.  When the two relative-permeability
    tables start at the same saturation and end at the same saturation, it
    therefore returns 0 outside the non-wetting table's domain and the
    result of [evalDeriv_] on the non-wetting table inside it. *)
Theorem twoPhaseSatDKrn_dSw_on_tables_with_common_range
        {traits : Traits} (params : Params) (fw bw fn bn : Scalar * Scalar)
        (Sw : Scalar) :
  front (krwSamples params) = Ret fw -> back (krwSamples params) = Ret bw ->
  front (krnSamples params) = Ret fn -> back (krnSamples params) = Ret bn ->
  (fst fw == fst fn)%Q -> (fst bw == fst bn)%Q -> (fst fn <= fst bn)%Q ->
  ((Sw < fst fn)%Q -> twoPhaseSatDKrn_dSw params Sw = Ret 0%Q) /\
  ((fst bn < Sw)%Q -> twoPhaseSatDKrn_dSw params Sw = Ret 0%Q) /\
  ((fst fn <= Sw)%Q -> (Sw <= fst bn)%Q ->
   twoPhaseSatDKrn_dSw params Sw = evalDeriv_ (krnSamples params) Sw).
Proof.
  intros Hfw Hbw Hfn Hbn Hf Hb Hfb.
  unfold twoPhaseSatDKrn_dSw, Sgt. rewrite Hfw. simpl bind.
  split; [|split].
  - intros H. assert (E : Slt Sw (fst fw) = true) by (apply Slt_true; lra).
    rewrite E. reflexivity.
  - intros H. assert (E : Slt Sw (fst fw) = false) by (apply Slt_false; lra).
    assert (E' : Slt (fst bw) Sw = true) by (apply Slt_true; lra).
    rewrite E, Hbw. simpl bind. rewrite E'. reflexivity.
  - intros Hlo Hhi.
    assert (E : Slt Sw (fst fw) = false) by (apply Slt_false; lra).
    assert (E' : Slt (fst bw) Sw = false) by (apply Slt_false; lra).
    rewrite E, Hbw. simpl bind. rewrite E'. reflexivity.
Qed.

Lemma twoPhaseSatDKrn_dSw_on_tables_with_common_range_witness :
  twoPhaseSatDKrn_dSw
    {| pcnwSamples := pc_table; krwSamples := [(2 # 10, 0); (1, 1)]%Q;
       krnSamples := [(2 # 10, 1); (5 # 10, 0); (1, 0)]%Q |} (1 # 10) = Ret 0%Q.
Proof.
  destruct (twoPhaseSatDKrn_dSw_on_tables_with_common_range
              {| pcnwSamples := pc_table; krwSamples := [(2 # 10, 0); (1, 1)]%Q;
                 krnSamples := [(2 # 10, 1); (5 # 10, 0); (1, 0)]%Q |}
              (2 # 10, 0)%Q (1, 1)%Q (2 # 10, 1)%Q (1, 0)%Q (1 # 10)%Q)
    as (Hbelow & _);
    [reflexivity | reflexivity | reflexivity | reflexivity
     | reflexivity | reflexivity | vm_compute; discriminate |].
  apply Hbelow. reflexivity.
Defined.

(** ** Sign of the wetting-phase slope *)

(** X14: when the wetting-phase table has at least two strictly increasing
    knots and its y-values do not decrease, [twoPhaseSatDKrw_dSw] returns a
    value for every saturation and that value is never negative: 0 outside
    the domain, the slope of a rising or flat segment inside. *)
Theorem twoPhaseSatDKrw_dSw_is_nonnegative
        {traits : Traits} (params : Params) (Sw : Scalar) :
  2 <= size (krwSamples params) ->
  strictly_increasing (krwSamples params) = true ->
  nondecreasing_values (krwSamples params) = true ->
  exists d, twoPhaseSatDKrw_dSw params Sw = Ret d /\ (0 <= d)%Q.
Proof.
  intros Hsize Hs Hmono.
  set (T := krwSamples params) in *.
  destruct (at_in_bounds T 0) as [f Hf]; [lia|].
  destruct (at_in_bounds T (size T - 1)) as [b Hb]; [lia|].
  rewrite <- front_at in Hf. rewrite <- back_at in Hb.
  unfold twoPhaseSatDKrw_dSw, Sgt. fold T. rewrite Hf. simpl bind.
  destruct (Slt Sw (fst f)) eqn:Hbelow.
  { exists 0%Q. split; [reflexivity | lra]. }
  apply Slt_false in Hbelow. rewrite Hb. simpl bind.
  destruct (Slt (fst b) Sw) eqn:Habove.
  { exists 0%Q. split; [reflexivity | lra]. }
  apply Slt_false in Habove.
  destruct (eval_in_domain T Sw f b Hs Hsize Hf Hb Hbelow Habove)
    as (i & l & r & Hl & Hr & _ & _ & Hlr & _ & Hd).
  eexists. split; [exact Hd|].
  pose proof (at_Ret_bounds _ _ _ Hl).
  pose proof (values_le T i (i + 1) l r Hmono Hl Hr ltac:(lia)).
  apply Qle_shift_div_l; lra.
Qed.

Lemma twoPhaseSatDKrw_dSw_is_nonnegative_witness :
  exists d, twoPhaseSatDKrw_dSw example_params (6 # 10) = Ret d /\ (0 <= d)%Q.
Proof.
  apply (twoPhaseSatDKrw_dSw_is_nonnegative example_params (6 # 10));
    try reflexivity; vm_compute; discriminate.
Defined.
